(** * Separate-chaining hash table over a singly linked list

    A shallow embedding of [linkedlist.py] (class [LinkedList], the
    "Chain") and [hashtable.py] (class [HashTable], the "Table").

    Python objects are mutable and shared by reference.  The nodes of a
    linked list are therefore kept in an explicit store: a node reference
    is an index into the store, [None] is [None], and the attributes
    [head], [tail] and [next] hold such references.  Two references are
    the same object exactly when they are the same index ([Node] defines
    no [__eq__], so [==] on nodes is identity).  A list never hands its
    nodes out, so every list owns a private store; nodes that are no
    longer reachable simply stay in the store (garbage collection cannot
    be observed).

    An exception leaves behind whatever the method had already written,
    so a raising call also yields a successor state. *)

From Stdlib Require Import ZArith Lia.
From stdpp Require Import base decidable option list strings.

Local Open Scope Z_scope.

(** ** Exceptions and outcomes *)

Inductive exn : Set :=
| ValueError
| KeyError
| ZeroDivisionError.

#[global] Instance exn_eq_dec : EqDecision exn.
Proof. solve_decision. Defined.

(** What a method call does to the object it is called on: it returns a
    value, or raises, both in a successor state; [Undefined] stands for
    the runs Python has no result for (a [while] loop that follows a
    cyclic [next] chain for ever) and for stores with a reference outside
    the store, which no operation creates. *)
Inductive outcome (S R : Type) : Type :=
| Returns (r : R) (s : S)
| Raises (e : exn) (s : S)
| Undefined.
Arguments Returns {S R} r s.
Arguments Raises {S R} e s.
Arguments Undefined {S R}.

(** The state a call leaves behind, when it has one. *)
Definition final {S R} (o : outcome S R) : option S :=
  match o with
  | Returns _ s => Some s
  | Raises _ s => Some s
  | Undefined => None
  end.

(** What the caller gets to see of a call: the value returned or the
    exception raised. *)
Definition answer {S R} (o : outcome S R) : option (R + exn) :=
  match o with
  | Returns r _ => Some (inl r)
  | Raises e _ => Some (inr e)
  | Undefined => None
  end.

(** A caller that calls method [m] on an object, catches what it raises,
    and carries on with the object. *)
Definition run {S R} (m : S -> outcome S R) (s : S) : S :=
  default s (final (m s)).

(** The built-in [list(it)] on an iterator [it]: it calls [next] until
    [StopIteration] is raised and returns what was yielded, leaving the
    iterator in its last state.  [next] gives the item (or [None] for
    [StopIteration]) and the iterator's next state. *)
Fixpoint collect {S X} (next : S -> option (option X * S)) (fuel : nat)
    (it : S) (acc : list X) : option (list X * S) :=
  match fuel with
  | O => None
  | S fuel' =>
      match next it with
      | None => None
      | Some (None, it') => Some (acc, it')
      | Some (Some x, it') => collect next fuel' it' (acc ++ [x])
      end
  end.

(** ** linkedlist.py *)

Module LinkedList.
Section defs.
Context {A : Type} `{EqDecision A}.

(** [class Node]: [data] and [next]. *)
Record Node : Type := mkNode { data : A; next : option nat }.

(** [class LinkedList]: [head], [tail], [size], and the store of the
    nodes allocated so far. *)
Record t : Type := mk {
  heap : list Node;
  head : option nat;
  tail : option nat;
  size : Z
}.

Definition set_next (q : option nat) (n : Node) : Node :=
  {| data := data n; next := q |}.
Definition set_data (x : A) (n : Node) : Node :=
  {| data := x; next := next n |}.

(** [LinkedList()] *)
Definition init : t := {| heap := []; head := None; tail := None; size := 0 |}.

(** [is_empty]: [self.head is None]. *)
Definition is_empty (c : t) : bool := bool_decide (head c = None).

(** The [while node is not None] loop of [items].  One unit of fuel is
    spent per node visited. *)
Fixpoint items_loop (fuel : nat) (h : list Node) (node : option nat)
    (items : list A) : option (list A) :=
  match node with
  | None => Some items
  | Some l =>
      match fuel with
      | O => None
      | S fuel' =>
          match h !! l with
          | Some n => items_loop fuel' h (next n) (items ++ [data n])
          | None => None
          end
      end
  end.

(** [items]: a chain that ends visits each node once, so as many steps
    as there are nodes in the store suffice (lemma [chain_length_le]). *)
Definition items (c : t) : option (list A) :=
  items_loop (Datatypes.length (heap c)) (heap c) (head c) [].

(** [append] *)
Definition append (item : A) (c : t) : t :=
  let node := Datatypes.length (heap c) in
  let h := heap c ++ [mkNode item None] in
  match tail c with
  | Some tl =>
      {| heap := alter (set_next (Some node)) tl h; head := head c;
         tail := Some node; size := size c + 1 |}
  | None =>
      {| heap := h; head := Some node; tail := Some node; size := size c + 1 |}
  end.

(** [prepend] *)
Definition prepend (item : A) (c : t) : t :=
  let node := Datatypes.length (heap c) in
  if is_empty c then
    {| heap := heap c ++ [mkNode item None]; head := Some node;
       tail := Some node; size := size c + 1 |}
  else
    {| heap := heap c ++ [mkNode item (head c)]; head := Some node;
       tail := tail c; size := size c + 1 |}.

(** The body of the [if current_node.data == item] inside the loop of
    [delete]: [l] is [current_node], [n] the node it refers to. *)
Definition unlink (previous_node : option nat) (l : nat) (n : Node) (c : t) : t :=
  match previous_node with
  | None =>
      {| heap := heap c; head := next n; tail := tail c; size := size c |}
  | Some p =>
      if decide (Some l = tail c) then
        {| heap := alter (set_next None) p (heap c); head := head c;
           tail := Some p; size := size c |}
      else
        {| heap := alter (set_next (next n)) p (heap c); head := head c;
           tail := tail c; size := size c |}
  end.

(** The [while current_node is not None] loop of [delete].  There is no
    [break]: the loop runs to the end of the chain, and
    [current_node.next] is read after the writes of the iteration. *)
Fixpoint delete_loop (fuel : nat) (item : A) (c : t) (is_found : bool)
    (previous_node current_node : option nat) : option (t * bool) :=
  match current_node with
  | None => Some (c, is_found)
  | Some l =>
      match fuel with
      | O => None
      | S fuel' =>
          match heap c !! l with
          | None => None
          | Some n =>
              let hit := bool_decide (data n = item) in
              let c' := if hit then unlink previous_node l n c else c in
              match heap c' !! l with
              | None => None
              | Some n' =>
                  delete_loop fuel' item c' (hit || is_found) (Some l) (next n')
              end
          end
      end
  end.

Definition with_size (z : Z) (c : t) : t :=
  {| heap := heap c; head := head c; tail := tail c; size := z |}.

(** [delete] *)
Definition delete (item : A) (c : t) : outcome t unit :=
  if is_empty c then Raises ValueError c
  else if decide (head c = tail c) then
    match head c ≫= (heap c !!.) with
    | None => Undefined
    | Some n =>
        if decide (data n = item) then
          Returns tt {| heap := heap c; head := None; tail := None;
                        size := size c - 1 |}
        else Raises ValueError c
    end
  else
    match delete_loop (Datatypes.length (heap c)) item c false None (head c) with
    | None => Undefined
    | Some (c', is_found) =>
        let c'' := with_size (size c' - 1) c' in
        if is_found then Returns tt c'' else Raises ValueError c''
    end.

(** The loop of [replace]: [Some (Some h)] when a node was overwritten
    (the method returns at once), [Some None] when the loop fell off the
    end of the chain. *)
Fixpoint replace_loop (fuel : nat) (item new_data : A) (h : list Node)
    (current_node : option nat) : option (option (list Node)) :=
  match current_node with
  | None => Some None
  | Some l =>
      match fuel with
      | O => None
      | S fuel' =>
          match h !! l with
          | None => None
          | Some n =>
              if decide (data n = item)
              then Some (Some (alter (set_data new_data) l h))
              else replace_loop fuel' item new_data h (next n)
          end
      end
  end.

(** [replace] *)
Definition replace (item new_data : A) (c : t) : outcome t unit :=
  match replace_loop (Datatypes.length (heap c)) item new_data (heap c) (head c) with
  | None => Undefined
  | Some (Some h) =>
      Returns tt {| heap := h; head := head c; tail := tail c; size := size c |}
  | Some None => Raises ValueError c
  end.

(** [length]: the maintained count. *)
Definition length (c : t) : Z := size c.

(** [LinkedList(items)]: the constructor appends the given items. *)
Definition of_list (xs : list A) : t := foldl (fun c x => append x c) init xs.

(** *** Reading a store

    [seg h q p ls xs]: following [next] from reference [p] in store [h]
    passes through the nodes [ls], which hold the entries [xs], and
    arrives at [q]. *)
Inductive seg (h : list Node) (q : option nat)
    : option nat -> list nat -> list A -> Prop :=
| seg_nil : seg h q q [] []
| seg_cons l n ls xs :
    h !! l = Some n -> seg h q (next n) ls xs ->
    seg h q (Some l) (l :: ls) (data n :: xs).

(** The nodes reachable from [p], up to the [None] that ends them. *)
Definition chain (h : list Node) (p : option nat) (ls : list nat) (xs : list A)
    : Prop :=
  seg h None p ls xs.

(** The structure [append] and [prepend] maintain: the entries [xs] are
    reachable from [head] and [tail] is the last node reached (and is
    [None] for the empty list).  Nothing is said about [size]. *)
Definition wf (c : t) (xs : list A) : Prop :=
  exists ls, chain (heap c) (head c) ls xs /\ tail c = last ls.

(** ... together with the count. *)
Definition counted (c : t) (xs : list A) : Prop :=
  wf c xs /\ size c = Z.of_nat (Datatypes.length xs).

(** [ordered h ls]: every node of [ls] is in the store [h], and its
    [next], if it has one, is a node further down [ls]. *)
Definition ordered (h : list Node) (ls : list nat) : Prop :=
  forall j l, ls !! j = Some l ->
    exists n, h !! l = Some n /\
      forall l', next n = Some l' ->
        exists j', (j < j')%nat /\ ls !! j' = Some l'.

(** What is left of [wf] when [delete] has unlinked more than one node
    (see [list_AA_minus_A] below): following [next] from [head] still
    comes to an end, and [tail], if there is one, is a node without a
    [next], that need not be reachable from [head]. *)
Definition sound (c : t) : Prop :=
  (exists ls xs, chain (heap c) (head c) ls xs) /\
  (forall tl, tail c = Some tl ->
     exists n, heap c !! tl = Some n /\ next n = None).

(** The states of a list object that calls of its methods lead to; a
    raised [ValueError] is caught by the caller. *)
Inductive reachable : t -> Prop :=
| reachable_init : reachable init
| reachable_append item c : reachable c -> reachable (append item c)
| reachable_prepend item c : reachable c -> reachable (prepend item c)
| reachable_delete item c c' :
    reachable c -> final (delete item c) = Some c' -> reachable c'
| reachable_replace item new_data c c' :
    reachable c -> final (replace item new_data c) = Some c' -> reachable c'.

(** *** The rest of the class *)

(** The loop of [find]: [Some (Some x)] when the loop returned the entry
    [x], [Some None] when it fell off the end of the chain (the method
    then returns [None]).  [quality(data) is True] holds for the result
    [True] only, so [quality] is a function to [bool]. *)
Fixpoint find_loop (fuel : nat) (quality : A -> bool) (h : list Node)
    (current_node : option nat) : option (option A) :=
  match current_node with
  | None => Some None
  | Some l =>
      match fuel with
      | O => None
      | S fuel' =>
          match h !! l with
          | None => None
          | Some n =>
              if quality (data n) then Some (Some (data n))
              else find_loop fuel' quality h (next n)
          end
      end
  end.

(** [find]: the list is not written; [None] outside is a run without a
    result, as [Undefined] is. *)
Definition find (quality : A -> bool) (c : t) : option (option A) :=
  if is_empty c then Some None
  else find_loop (Datatypes.length (heap c)) quality (heap c) (head c).

(** [class llIterator]: the attribute [curr].  [llIterator(head)] starts
    at [head]; [__next__] reads the node [curr] refers to in the store as
    it is at the time of the call, and moves on.  The result [None]
    inside stands for [raise StopIteration]. *)
Definition llIterator (head : option nat) : option nat := head.

Definition __next__ (h : list Node) (curr : option nat)
    : option (option A * option nat) :=
  match curr with
  | None => Some (None, None)
  | Some l =>
      match h !! l with
      | Some n => Some (Some (data n), next n)
      | None => None
      end
  end.

(** What the loop of [delete] leaves of the entries [xs] of a
    well-formed list (theorem [delete_unlinks]): a node that holds [item]
    is unlinked unless the node before it held [item] too, because
    [previous_node] then is a node that was unlinked itself. *)
Fixpoint unlinked (item : A) (xs : list A) : list A :=
  match xs with
  | [] => []
  | x :: r =>
      if decide (x = item) then
        match r with
        | [] => []
        | y :: r' => y :: unlinked item r'
        end
      else x :: unlinked item r
  end.
End defs.

Arguments Node : clear implicits.
Arguments t : clear implicits.
End LinkedList.

(** ** hashtable.py *)

Module HashTable.
Section defs.
(** Keys are hashable values with a decidable equality ([==]), and
    [hash] is Python's built-in [hash] on them: total and deterministic.
    Values are compared only as part of an entry [(key, value)]. *)
Context {K V : Type} `{EqDecision K} `{EqDecision V}.
Variable hash : K -> Z.

(** A bucket is a linked list of entries [(key, value)]. *)
Local Abbreviation bucket := (LinkedList.t (K * V)).

(** [class HashTable]: the list [buckets] and the count [size]. *)
Record t : Type := mk { buckets : list bucket; size : Z }.

(** [HashTable(init_size)]: [range(init_size)] is empty for
    [init_size <= 0]. *)
Definition init (init_size : Z) : t :=
  {| buckets := replicate (Z.to_nat init_size) LinkedList.init; size := 0 |}.

(** [_bucket_index]: [hash(key) % len(self.buckets)].  Python's [%]
    takes the sign of the divisor, as [Z.modulo] does, and raises
    [ZeroDivisionError] (here [None]) when the divisor is 0. *)
Definition _bucket_index (key : K) (ht : t) : option nat :=
  let n := Z.of_nat (Datatypes.length (buckets ht)) in
  if decide (n = 0) then None else Some (Z.to_nat (hash key `mod` n)).

(** The loop [for other_key, other_value in specific_bucket.items():
    if other_key == key: ...; return] shared by the four point
    operations: the first pair of the snapshot whose key is [key]. *)
Fixpoint scan (key : K) (its : list (K * V)) : option (K * V) :=
  match its with
  | [] => None
  | (other_key, other_value) :: its' =>
      if decide (other_key = key) then Some (other_key, other_value)
      else scan key its'
  end.

(** The loop of [items]: [all_items.extend(bucket.items())]. *)
Fixpoint items_loop (bs : list bucket) (all_items : list (K * V))
    : option (list (K * V)) :=
  match bs with
  | [] => Some all_items
  | b :: bs' =>
      match LinkedList.items b with
      | Some its => items_loop bs' (all_items ++ its)
      | None => None
      end
  end.

Definition items (ht : t) : option (list (K * V)) := items_loop (buckets ht) [].

Definition length (ht : t) : Z := size ht.

(** [specific_bucket] is the list object itself, not a copy: what a
    method of the bucket writes is written into [self.buckets]. *)
Definition store (i : nat) (b : bucket) (ht : t) (z : Z) : t :=
  {| buckets := <[i := b]> (buckets ht); size := z |}.

Definition contains (key : K) (ht : t) : outcome t bool :=
  match _bucket_index key ht with
  | None => Raises ZeroDivisionError ht
  | Some i =>
      match buckets ht !! i ≫= LinkedList.items with
      | None => Undefined
      | Some its =>
          match scan key its with
          | Some _ => Returns true ht
          | None => Returns false ht
          end
      end
  end.

Definition get (key : K) (ht : t) : outcome t V :=
  match _bucket_index key ht with
  | None => Raises ZeroDivisionError ht
  | Some i =>
      match buckets ht !! i ≫= LinkedList.items with
      | None => Undefined
      | Some its =>
          match scan key its with
          | Some (_, value) => Returns value ht
          | None => Raises KeyError ht
          end
      end
  end.

Definition set (key : K) (value : V) (ht : t) : outcome t unit :=
  match _bucket_index key ht with
  | None => Raises ZeroDivisionError ht
  | Some i =>
      match buckets ht !! i with
      | None => Undefined
      | Some b =>
          match LinkedList.items b with
          | None => Undefined
          | Some its =>
              match scan key its with
              | Some (other_key, other_value) =>
                  match LinkedList.replace (other_key, other_value) (key, value) b with
                  | Returns _ b' => Returns tt (store i b' ht (size ht))
                  | Raises e b' => Raises e (store i b' ht (size ht))
                  | Undefined => Undefined
                  end
              | None =>
                  Returns tt (store i (LinkedList.append (key, value) b) ht (size ht + 1))
              end
          end
      end
  end.

Definition delete (key : K) (ht : t) : outcome t unit :=
  match _bucket_index key ht with
  | None => Raises ZeroDivisionError ht
  | Some i =>
      match buckets ht !! i with
      | None => Undefined
      | Some b =>
          match LinkedList.items b with
          | None => Undefined
          | Some its =>
              match scan key its with
              | Some (other_key, other_value) =>
                  match LinkedList.delete (other_key, other_value) b with
                  | Returns _ b' => Returns tt (store i b' ht (size ht - 1))
                  | Raises e b' => Raises e (store i b' ht (size ht))
                  | Undefined => Undefined
                  end
              | None => Raises KeyError ht
              end
          end
      end
  end.

(** The bracket sugar. *)
Definition __setitem__ (key : K) (value : V) (ht : t) : outcome t unit :=
  set key value ht.
Definition __getitem__ (key : K) (ht : t) : outcome t V := get key ht.
Definition __contains__ (key : K) (ht : t) : outcome t bool := contains key ht.
Definition __len__ (ht : t) : Z := size ht.

(** [len(table)]: the built-in calls [__len__] and raises [ValueError]
    for a negative result. *)
Definition len (ht : t) : outcome t Z :=
  if decide (__len__ ht < 0) then Raises ValueError ht
  else Returns (__len__ ht) ht.

(** The snapshot [self.buckets[i].items()]. *)
Definition bucket_items (ht : t) (i : nat) : option (list (K * V)) :=
  buckets ht !! i ≫= LinkedList.items.

(** The representation invariant of a table whose buckets hold the
    entries [xss], bucket by bucket: every bucket is a well-formed list
    with a correct count, an entry lives in the bucket its key hashes to,
    no bucket holds a key twice, and [size] counts the entries. *)
Record table_ok (ht : t) (xss : list (list (K * V))) : Prop := {
  ok_buckets : Forall2 LinkedList.counted (buckets ht) xss;
  ok_home : forall i xs kv,
    xss !! i = Some xs -> kv ∈ xs -> _bucket_index kv.1 ht = Some i;
  ok_keys : forall i xs, xss !! i = Some xs -> NoDup xs.*1;
  ok_size : size ht = Z.of_nat (Datatypes.length (concat xss))
}.

(** The tables a caller can obtain: a fresh table, then [set] and
    [delete] calls, where a raised exception is caught by the caller and
    the table is used further. *)
Inductive reachable : t -> Prop :=
| reachable_init init_size : reachable (init init_size)
| reachable_set key value ht ht' :
    reachable ht -> final (set key value ht) = Some ht' -> reachable ht'
| reachable_delete key ht ht' :
    reachable ht -> final (delete key ht) = Some ht' -> reachable ht'.

(** *** The rest of the class *)

(** The inner loops of [keys] and [values]:
    [for key, value in bucket.items(): all_keys.append(key)]. *)
Fixpoint keys_inner (its : list (K * V)) (all_keys : list K) : list K :=
  match its with
  | [] => all_keys
  | (key, _) :: its' => keys_inner its' (all_keys ++ [key])
  end.

Fixpoint values_inner (its : list (K * V)) (all_values : list V) : list V :=
  match its with
  | [] => all_values
  | (_, value) :: its' => values_inner its' (all_values ++ [value])
  end.

(** The outer loops, [for bucket in self.buckets]. *)
Fixpoint keys_loop (bs : list bucket) (all_keys : list K) : option (list K) :=
  match bs with
  | [] => Some all_keys
  | b :: bs' =>
      match LinkedList.items b with
      | Some its => keys_loop bs' (keys_inner its all_keys)
      | None => None
      end
  end.

Fixpoint values_loop (bs : list bucket) (all_values : list V)
    : option (list V) :=
  match bs with
  | [] => Some all_values
  | b :: bs' =>
      match LinkedList.items b with
      | Some its => values_loop bs' (values_inner its all_values)
      | None => None
      end
  end.

Definition keys (ht : t) : option (list K) := keys_loop (buckets ht) [].
Definition values (ht : t) : option (list V) := values_loop (buckets ht) [].

(** [iterate] is a generator function: the call returns a generator
    object and runs nothing.  The first [next] runs [self.items()] on the
    table as it is then and yields from that list; the later ones go on
    in the list, which nothing else refers to. *)
Inductive generator : Type :=
| Created
| Suspended (rest : list (K * V))
| Finished.

Definition iterate (ht : t) : generator := Created.

(** [next(g)] on the generator [g = table.iterate()], the table being
    [ht] at the time of the call; the result [None] inside stands for
    [raise StopIteration], [None] outside for a run without a result. *)
Definition generator_next (ht : t) (g : generator)
    : option (option (K * V) * generator) :=
  match g with
  | Created =>
      match items ht with
      | Some (node :: rest) => Some (Some node, Suspended rest)
      | Some [] => Some (None, Finished)
      | None => None
      end
  | Suspended (node :: rest) => Some (Some node, Suspended rest)
  | Suspended [] => Some (None, Finished)
  | Finished => Some (None, Finished)
  end.
End defs.

Arguments t : clear implicits.
Arguments generator : clear implicits.
End HashTable.

(** Keys for the examples: Python integers, for which [hash(n)] is [n]
    itself when [0 <= n < 2**61 - 1]; the examples use such keys only. *)
Definition int_hash (n : Z) : Z := n.

(** The table of the scenario [set('I', 1); set('V', 5); set('X', 10)] on
    [HashTable(8)], with the keys 1, 5 and 10 for 'I', 'V' and 'X'. *)
Definition roman : HashTable.t Z Z :=
  run (HashTable.set int_hash 10 10)
    (run (HashTable.set int_hash 5 5)
       (run (HashTable.set int_hash 1 1) (HashTable.init 8))).

(** ... and with a fourth key, 9, which shares bucket 1 with key 1. *)
Definition roman9 : HashTable.t Z Z := run (HashTable.set int_hash 9 90) roman.

(** [HashTable(0)]: a table without buckets. *)
Definition no_buckets : HashTable.t Z Z := HashTable.init 0.

(** Lists of the entries 'A', 'B', ...: [LinkedList(['A', 'B'])],
    [LinkedList(['A', 'B', 'A'])], and [LinkedList(['A', 'A'])] after
    [delete('A')]. *)
Definition list_AB : LinkedList.t string :=
  LinkedList.of_list ["A"%string; "B"%string].
Definition list_ABA : LinkedList.t string :=
  LinkedList.of_list ["A"%string; "B"%string; "A"%string].
Definition list_AA_minus_A : LinkedList.t string :=
  run (LinkedList.delete "A"%string)
    (LinkedList.of_list ["A"%string; "A"%string]).

(** A caller that makes the calls [set(k, v)] for the pairs [(k, v)] of
    [kvs], in this order. *)
Definition set_all {K V : Type} `{EqDecision K} `{EqDecision V}
    (hash : K -> Z) (kvs : list (K * V)) (ht : HashTable.t K V)
    : HashTable.t K V :=
  foldl (fun ht kv => run (HashTable.set hash kv.1 kv.2) ht) ht kvs.

(** * Stores and chains *)

Section chain_facts.
Import LinkedList.
Context {A : Type} `{EqDecision A}.
Implicit Types (h : list (Node A)) (c : t A) (p q r : option nat).
Implicit Types (ls : list nat) (xs acc : list A).

Lemma seg_length h q p ls xs :
  seg h q p ls xs -> Datatypes.length ls = Datatypes.length xs.
Proof. induction 1; simpl; congruence. Qed.

Lemma seg_app h p q r ls1 xs1 ls2 xs2 :
  seg h q p ls1 xs1 -> seg h r q ls2 xs2 ->
  seg h r p (ls1 ++ ls2) (xs1 ++ xs2).
Proof.
  induction 1 as [|l n ls xs Hl _ IH]; intros H2; simpl; [done|].
  econstructor; eauto.
Qed.

Lemma seg_split h r p ls1 ls2 xs :
  seg h r p (ls1 ++ ls2) xs ->
  exists q xs1 xs2,
    xs = xs1 ++ xs2 /\ seg h q p ls1 xs1 /\ seg h r q ls2 xs2.
Proof.
  revert p xs. induction ls1 as [|l ls1 IH]; intros p xs Hs; simpl in *.
  - exists p, [], xs. repeat split; [constructor | done].
  - inversion Hs as [|l' n ls' xs' Hl Htl]; subst.
    destruct (IH _ _ Htl) as (q & xs1 & xs2 & -> & H1 & H2).
    exists q, (data n :: xs1), xs2. repeat split; [|done].
    by econstructor.
Qed.

(** The entries split along with the nodes. *)
Lemma seg_split_entries h r p ls xs1 xs2 :
  seg h r p ls (xs1 ++ xs2) ->
  exists q ls1 ls2,
    ls = ls1 ++ ls2 /\ seg h q p ls1 xs1 /\ seg h r q ls2 xs2.
Proof.
  revert p ls. induction xs1 as [|x xs1 IH]; intros p ls Hs; simpl in *.
  - exists p, [], ls. repeat split; [constructor | done].
  - inversion Hs as [|l n ls' xs' Hl Htl]; subst.
    destruct (IH _ _ Htl) as (q & ls1 & ls2 & -> & H1 & H2).
    exists q, (l :: ls1), ls2. repeat split; [|done].
    by econstructor.
Qed.

Lemma seg_lt h q p ls xs :
  seg h q p ls xs -> Forall (fun l => (l < Datatypes.length h)%nat) ls.
Proof.
  induction 1 as [|l n ls xs Hl _ IH]; constructor; [|done].
  by eapply lookup_lt_Some.
Qed.

(** A store that agrees with [h] on the nodes of a segment has the same
    segment. *)
Lemma seg_frame h h' q p ls xs :
  seg h q p ls xs -> (forall l, l ∈ ls -> h' !! l = h !! l) ->
  seg h' q p ls xs.
Proof.
  induction 1 as [|l n ls xs Hl _ IH]; intros Hagree; [constructor|].
  econstructor.
  - rewrite Hagree; [done | left].
  - apply IH. intros l' Hin. apply Hagree. by right.
Qed.

(** Following [next] is deterministic. *)
Lemma chain_det h p ls xs ls' xs' :
  chain h p ls xs -> chain h p ls' xs' -> ls = ls' /\ xs = xs'.
Proof.
  unfold chain. intros H1. revert ls' xs'.
  induction H1 as [|l n ls xs Hl _ IH]; intros ls' xs' H2.
  - by inversion H2.
  - inversion H2 as [|l' n' ls'' xs'' Hl' Htl]; subst.
    rewrite Hl in Hl'. injection Hl' as <-.
    destruct (IH _ _ Htl) as [-> ->]. done.
Qed.

(** A chain that ends passes through no node twice. *)
Lemma chain_NoDup h p ls xs : chain h p ls xs -> NoDup ls.
Proof.
  unfold chain. induction 1 as [|l n ls xs Hl Htl IH]; constructor; [|done].
  intros Hin. apply list_elem_of_split in Hin as (ls1 & ls2 & ->).
  destruct (seg_split _ _ _ _ _ _ Htl) as (q & xs1 & xs2 & -> & H1 & H2).
  inversion H2 as [|l' n' ls' xs' Hl' Htl2]; subst.
  rewrite Hl in Hl'. injection Hl' as <-.
  destruct (chain_det _ _ _ _ _ _ Htl Htl2) as [Hls _].
  apply (f_equal Datatypes.length) in Hls.
  rewrite length_app in Hls. simpl in Hls. lia.
Qed.

(** ... and so is no longer than the store: the fuel of the loops. *)
Lemma chain_length_le h p ls xs :
  chain h p ls xs -> (Datatypes.length ls <= Datatypes.length h)%nat.
Proof.
  intros Hc.
  assert (ls ⊆+ seq 0 (Datatypes.length h)) as Hsub.
  { apply NoDup_submseteq; [by eapply chain_NoDup|].
    intros l Hin. apply elem_of_seq.
    pose proof (seg_lt _ _ _ _ _ Hc) as Hlt.
    rewrite Forall_forall in Hlt. specialize (Hlt l Hin). lia. }
  apply submseteq_length in Hsub. by rewrite length_seq in Hsub.
Qed.

End chain_facts.

(** * The loops of the linked list on a chain *)

Section loop_facts.
Import LinkedList.
Context {A : Type} `{EqDecision A}.
Implicit Types (h : list (Node A)) (c : t A) (p q r : option nat).
Implicit Types (ls : list nat) (xs acc : list A) (item : A).

Lemma items_loop_chain fuel h p ls xs acc :
  chain h p ls xs -> (Datatypes.length ls <= fuel)%nat ->
  items_loop fuel h p acc = Some (acc ++ xs).
Proof.
  unfold chain. intros Hc. revert fuel acc.
  induction Hc as [|l n ls xs Hl _ IH]; intros fuel acc Hfuel; simpl in *.
  - destruct fuel; simpl; by rewrite app_nil_r.
  - destruct fuel as [|fuel]; [lia|]. simpl. rewrite Hl.
    rewrite IH by lia. by rewrite <- app_assoc.
Qed.

Lemma items_loop_inv fuel h p acc res :
  items_loop fuel h p acc = Some res ->
  exists ls xs, chain h p ls xs /\ res = acc ++ xs.
Proof.
  revert p acc. induction fuel as [|fuel IH]; intros [l|] acc Hres;
    simpl in Hres; try discriminate.
  - injection Hres as <-. exists [], []. split; [constructor|].
    by rewrite app_nil_r.
  - destruct (h !! l) as [n|] eqn:Hl; [|discriminate].
    destruct (IH _ _ Hres) as (ls & xs & Hc & ->).
    exists (l :: ls), (data n :: xs). split; [by econstructor|].
    by rewrite <- app_assoc.
  - injection Hres as <-. exists [], []. split; [constructor|].
    by rewrite app_nil_r.
Qed.

(** [items()] returns exactly the entries reachable from [head]. *)
Lemma items_chain c xs :
  items c = Some xs <-> exists ls, chain (heap c) (head c) ls xs.
Proof.
  unfold items. split.
  - intros Hi. destruct (items_loop_inv _ _ _ _ _ Hi) as (ls & xs' & Hc & ->).
    by exists ls.
  - intros [ls Hc]. rewrite (items_loop_chain _ _ _ ls xs); [done..|].
    by eapply chain_length_le.
Qed.

Lemma wf_items c xs : wf c xs -> items c = Some xs.
Proof. intros (ls & Hc & _). apply items_chain. by exists ls. Qed.

(** [items] reads [head] and the store only. *)
Lemma items_with_size z c : items (with_size z c) = items c.
Proof. done. Qed.

(** Walking over nodes that do not hold [item] writes nothing. *)
Lemma delete_loop_skip fuel item c is_found previous_node p q ls xs :
  seg (heap c) q p ls xs -> item ∉ xs -> (Datatypes.length ls <= fuel)%nat ->
  delete_loop fuel item c is_found previous_node p =
  delete_loop (fuel - Datatypes.length ls) item c is_found
    (from_option Some previous_node (last ls)) q.
Proof.
  intros Hs. revert fuel previous_node.
  induction Hs as [|l n ls xs Hl _ IH]; intros fuel previous_node Hni Hfuel;
    simpl in *.
  - by rewrite Nat.sub_0_r.
  - destruct fuel as [|fuel]; [lia|]. simpl. rewrite Hl.
    apply not_elem_of_cons in Hni as [Hne Hni].
    rewrite bool_decide_eq_false_2 by done. simpl. rewrite Hl.
    rewrite IH by (done || lia). f_equal.
    rewrite last_cons. by destruct (last ls).
Qed.

Lemma delete_loop_miss fuel item c is_found previous_node p ls xs :
  chain (heap c) p ls xs -> item ∉ xs -> (Datatypes.length ls <= fuel)%nat ->
  delete_loop fuel item c is_found previous_node p = Some (c, is_found).
Proof.
  intros Hc Hni Hfuel.
  rewrite (delete_loop_skip _ _ _ _ _ _ _ _ _ Hc Hni Hfuel).
  by destruct (fuel - Datatypes.length ls)%nat.
Qed.

(** A failed [delete]: the three ways through the method. *)
Lemma delete_miss item c xs :
  items c = Some xs -> item ∉ xs ->
  delete item c =
  Raises ValueError
    (if decide (head c = None \/ head c = tail c) then c
     else with_size (size c - 1) c).
Proof.
  intros [ls Hc]%items_chain Hni. unfold delete, is_empty.
  destruct (head c) as [l|] eqn:Hhd; simpl.
  - destruct (decide (Some l = tail c)) as [Htl|Htl].
    + inversion Hc as [|l' n ls' xs' Hl Hrest]; subst. rewrite Hl.
      apply not_elem_of_cons in Hni as [Hne _].
      rewrite decide_False by done.
      rewrite decide_True by (by right). done.
    + rewrite (delete_loop_miss _ _ _ _ _ _ ls xs);
        [|by rewrite ?Hhd|done|by eapply chain_length_le].
      case_decide as Hd; [by destruct Hd | done].
  - done.
Qed.

Lemma replace_loop_skip fuel item new_data h p q ls xs :
  seg h q p ls xs -> item ∉ xs -> (Datatypes.length ls <= fuel)%nat ->
  replace_loop fuel item new_data h p =
  replace_loop (fuel - Datatypes.length ls) item new_data h q.
Proof.
  intros Hs. revert fuel.
  induction Hs as [|l n ls xs Hl _ IH]; intros fuel Hni Hfuel; simpl in *.
  - by rewrite Nat.sub_0_r.
  - destruct fuel as [|fuel]; [lia|]. simpl. rewrite Hl.
    apply not_elem_of_cons in Hni as [Hne Hni].
    rewrite decide_False by done. apply IH; [done | lia].
Qed.

(** A failed [replace] writes nothing. *)
Lemma replace_miss item new_data c xs :
  items c = Some xs -> item ∉ xs ->
  replace item new_data c = Raises ValueError c.
Proof.
  intros [ls Hc]%items_chain Hni. unfold replace.
  rewrite (replace_loop_skip _ _ _ _ _ _ _ _ Hc Hni)
    by (by eapply chain_length_le).
  by destruct (_ - _)%nat.
Qed.

End loop_facts.

(** * The linked list operations on a well-formed list *)

Section wf_facts.
Import LinkedList.
Context {A : Type} `{EqDecision A}.
Implicit Types (h : list (Node A)) (c : t A) (p q r : option nat).
Implicit Types (ls : list nat) (xs acc : list A) (item : A).

Lemma seg_alter f h q p ls xs pv :
  seg h q p ls xs -> pv ∉ ls -> seg (alter f pv h) q p ls xs.
Proof.
  intros Hs Hni. eapply seg_frame; [done|].
  intros l Hin. apply list_lookup_alter_ne. by intros ->.
Qed.

Lemma seg_grow h nd q p ls xs : seg h q p ls xs -> seg (h ++ [nd]) q p ls xs.
Proof. induction 1; econstructor; eauto using lookup_app_l_Some. Qed.

Lemma lookup_alter_eq f h l (n : Node A) :
  h !! l = Some n -> alter f l h !! l = Some (f n).
Proof. intros Hl. rewrite list_lookup_alter, decide_True by done. by rewrite Hl. Qed.

Lemma wf_init : wf (@init A) [].
Proof. exists []. split; [constructor | done]. Qed.

Lemma wf_append item c xs : wf c xs -> wf (append item c) (xs ++ [item]).
Proof.
  intros (ls & Hc & Htl). unfold append.
  destruct (tail c) as [tl|] eqn:Ht.
  - symmetry in Htl. apply last_Some in Htl as [ls0 ->].
    pose proof (chain_NoDup _ _ _ _ Hc) as Hnd.
    apply NoDup_app in Hnd as (_ & Hdisj & _).
    destruct (seg_split _ _ _ _ _ _ Hc) as (q & xs1 & xs2 & -> & H1 & H2).
    inversion H2 as [|l n ls' xs' Hl Hrest]; subst.
    inversion Hrest as [Hnext|]; subst.
    pose proof (lookup_lt_Some _ _ _ Hl) as Hlt.
    exists ((ls0 ++ [tl]) ++ [Datatypes.length (heap c)]). simpl. split.
    + apply seg_app with (q := Some (Datatypes.length (heap c))).
      * apply seg_app with (q := Some tl).
        -- apply seg_alter; [by apply seg_grow|].
           intros Hin. apply (Hdisj _ Hin). left.
        -- change (data n) with (data (set_next (Some (Datatypes.length (heap c))) n)).
           econstructor; [|constructor].
           apply lookup_alter_eq. by apply lookup_app_l_Some.
      * change item with (data (mkNode item None)).
        econstructor; [|constructor].
        rewrite list_lookup_alter_ne by lia. by apply list_lookup_middle.
    + by rewrite last_snoc.
  - symmetry in Htl. apply last_None in Htl as ->.
    inversion Hc as [Hhd|]; subst.
    exists [Datatypes.length (heap c)]. simpl. split; [|done].
    change item with (data (mkNode item None)).
    econstructor; [|constructor]. by apply list_lookup_middle.
Qed.

Lemma wf_prepend item c xs : wf c xs -> wf (prepend item c) (item :: xs).
Proof.
  intros (ls & Hc & Htl). unfold prepend, is_empty.
  case_bool_decide as Hhd.
  - rewrite Hhd in Hc. inversion Hc; subst.
    exists [Datatypes.length (heap c)]. simpl. split; [|done].
    change item with (data (mkNode item None)).
    econstructor; [|constructor]. by apply list_lookup_middle.
  - exists (Datatypes.length (heap c) :: ls). simpl. split.
    + change item with (data (mkNode item (head c))).
      econstructor; [by apply list_lookup_middle|]. by apply seg_grow.
    + rewrite Htl. destruct ls as [|l ls]; [|done].
      inversion Hc; congruence.
Qed.

Lemma size_append item c : size (append item c) = size c + 1.
Proof. unfold append. by destruct (tail c). Qed.

Lemma size_prepend item c : size (prepend item c) = size c + 1.
Proof. unfold prepend. by destruct (is_empty c). Qed.

(** [replace] overwrites the first node that holds [item], in place. *)
Lemma replace_hit item new_data c pre post :
  wf c (pre ++ item :: post) -> item ∉ pre ->
  exists c',
    replace item new_data c = Returns tt c' /\
    wf c' (pre ++ new_data :: post) /\ size c' = size c.
Proof.
  intros (ls & Hc & Htl) Hpre.
  pose proof (chain_NoDup _ _ _ _ Hc) as Hnd.
  pose proof (chain_length_le _ _ _ _ Hc) as Hle.
  destruct (seg_split_entries _ _ _ _ _ _ Hc) as (q & ls1 & ls2' & -> & H1 & H2).
  inversion H2 as [|l n ls2 xs2 Hl Hrest]; subst.
  apply NoDup_app in Hnd as (_ & Hdisj & [Hl2 _]%NoDup_cons).
  rewrite length_app in Hle. simpl in Hle.
  unfold replace.
  rewrite (replace_loop_skip _ _ _ _ _ _ _ _ H1 Hpre) by lia.
  destruct (Datatypes.length (heap c) - Datatypes.length ls1)%nat
    as [|fuel] eqn:Hfuel; [lia|].
  simpl. rewrite Hl, decide_True by done.
  eexists. split; [done|]. split; [|done].
  exists (ls1 ++ l :: ls2). simpl. split; [|done].
  eapply seg_app.
  - apply seg_alter; [done|]. intros Hin. apply (Hdisj _ Hin). left.
  - change new_data with (data (set_data new_data n)).
    econstructor; [by apply lookup_alter_eq|]. by apply seg_alter.
Qed.

(** The loop of [delete] on a chain that holds [item] exactly once, in
    node [l]: it walks to [l], unlinks it, and walks on to the end. *)
Lemma delete_loop_once fuel item c is_found previous_node p l n ls1 pre ls2 post :
  let c' := unlink (from_option Some previous_node (last ls1)) l n c in
  seg (heap c) (Some l) p ls1 pre -> item ∉ pre ->
  heap c !! l = Some n -> data n = item ->
  heap c' !! l = Some n ->
  chain (heap c') (next n) ls2 post -> item ∉ post ->
  (Datatypes.length ls1 + 1 + Datatypes.length ls2 <= fuel)%nat ->
  delete_loop fuel item c is_found previous_node p = Some (c', true).
Proof.
  intros c' H1 Hpre Hl Hdata Hl' H2 Hpost Hfuel.
  rewrite (delete_loop_skip _ _ _ _ _ _ _ _ _ H1 Hpre) by lia.
  destruct (fuel - Datatypes.length ls1)%nat as [|fuel'] eqn:Hf; [lia|].
  simpl. rewrite Hl, bool_decide_eq_true_2 by done. simpl.
  fold c'. rewrite Hl'.
  apply (delete_loop_miss _ _ _ _ _ _ ls2 post); [done..|lia].
Qed.

Lemma last_cons_ne (l : nat) ls : l ∉ ls -> ls ≠ [] -> Some l ≠ last (l :: ls).
Proof.
  intros Hni Hne Heq. destruct ls as [|l' ls]; [done|].
  rewrite last_cons_cons in Heq. symmetry in Heq.
  apply last_Some in Heq as [ls' Heq]. apply Hni. rewrite Heq.
  apply elem_of_app. right. left.
Qed.

(** In a well-formed list, [head] and [tail] are the same node exactly
    when there is at most one node. *)
Lemma wf_head_tail c xs :
  wf c xs ->
  match xs with
  | [] => head c = None /\ tail c = None
  | [_] => head c = tail c /\ head c <> None
  | _ :: _ :: _ => head c <> tail c /\ head c <> None
  end.
Proof.
  intros (ls & Hc & Htl). pose proof (chain_NoDup _ _ _ _ Hc) as Hnd.
  inversion Hc as [Hhd|l n ls' xs' Hl Hrest Hhd]; subst; [by rewrite Htl|].
  rewrite Htl.
  inversion Hrest as [Hnext|l2 n2 ls2 xs2 Hl2 Hrest2 Hnext]; subst; [done|].
  split; [|done]. apply NoDup_cons in Hnd as [Hni _].
  by apply last_cons_ne.
Qed.

(** [delete] of an entry the list holds exactly once. *)
Lemma delete_once item c pre post :
  wf c (pre ++ item :: post) -> item ∉ pre -> item ∉ post ->
  exists c',
    delete item c = Returns tt c' /\
    wf c' (pre ++ post) /\ size c' = size c - 1.
Proof.
  intros Hwf Hpre Hpost. pose proof (wf_head_tail _ _ Hwf) as Hht.
  destruct Hwf as (ls & Hc & Htl).
  pose proof (chain_NoDup _ _ _ _ Hc) as Hnd.
  pose proof (chain_length_le _ _ _ _ Hc) as Hle.
  destruct (seg_split_entries _ _ _ _ _ _ Hc) as (q & ls1 & ls2' & -> & H1 & H2).
  inversion H2 as [|l n ls2 xs2 Hl Hrest]; subst.
  apply NoDup_app in Hnd as (Hnd1 & Hdisj & [Hl2 Hnd2]%NoDup_cons).
  rewrite length_app in Hle. simpl in Hle.
  pose proof (seg_length _ _ _ _ _ Hrest) as Hlen2.
  unfold delete, is_empty.
  destruct (decide (pre = [] /\ post = [])) as [[-> ->]|Hmany].
  - (* the only node *)
    simpl in Hht. destruct Hht as [Hht Hhd].
    rewrite bool_decide_eq_false_2, decide_True by done.
    inversion H1; subst. simpl. rewrite Hl, decide_True by done.
    eexists. split; [done|]. split; [|done].
    exists []. split; [constructor | done].
  - assert (head c <> tail c /\ head c <> None) as [Hne Hhd].
    { destruct pre as [|? [|? ?]], post as [|? ?]; simpl in Hht; try done.
      exfalso. by apply Hmany. }
    rewrite bool_decide_eq_false_2, decide_False by done.
    rewrite last_app_cons in Htl.
    destruct (last ls1) as [pv|] eqn:Hlast.
    + (* [l] has a predecessor [pv] *)
      apply last_Some in Hlast as [ls0 ->].
      destruct (seg_split _ _ _ _ _ _ H1) as (q & pre0 & xs1 & -> & H0 & Hpv).
      inversion Hpv as [|pv' m ls' xs' Hm Hnil]; subst.
      inversion Hnil as [Hnext|]; subst.
      apply NoDup_app in Hnd1 as (_ & Hdisj0 & _).
      assert (pv ≠ l) as Hpvl.
      { intros ->. eapply Hdisj; [|left]. apply elem_of_app. right. left. }
      assert (pv ∉ ls2) as Hpv2.
      { intros Hin. eapply Hdisj; [|right; exact Hin].
        apply elem_of_app. right. left. }
      assert (pv ∉ ls0) as Hpv0.
      { intros Hin. eapply Hdisj0; [exact Hin|left]. }
      rewrite (delete_loop_once _ _ _ _ _ _ l n (ls0 ++ [pv])
                 (pre0 ++ [data m]) ls2 post); try done.
      * rewrite last_snoc. simpl. unfold unlink.
        eexists. split; [done|]. split; [|by case_decide].
        exists ((ls0 ++ [pv]) ++ ls2).
        destruct ls2 as [|l2 ls2].
        -- inversion Hrest as [Hnn|]; subst. simpl in Htl.
           rewrite decide_True by done. simpl. rewrite !app_nil_r.
           split; [|by rewrite last_snoc].
           eapply seg_app; [by apply seg_alter|].
           change (data m) with (data (set_next None m)).
           econstructor; [by apply lookup_alter_eq | constructor].
        -- rewrite decide_False
             by (rewrite Htl; by apply last_cons_ne). simpl.
           split; [|by rewrite Htl, last_cons_cons, last_app_cons].
           eapply seg_app; [eapply seg_app; [by apply seg_alter|]|].
           ++ change (data m) with (data (set_next (next n) m)).
              econstructor; [by apply lookup_alter_eq | constructor].
           ++ by apply seg_alter.
      * rewrite last_snoc. simpl. unfold unlink.
        case_decide; simpl; by rewrite list_lookup_alter_ne.
      * rewrite last_snoc. simpl. unfold unlink.
        case_decide; simpl; by apply seg_alter.
      * rewrite length_app in Hle |- *. simpl in *. lia.
    + (* [l] is the first node *)
      apply last_None in Hlast as ->. inversion H1 as [Hq|]; subst.
      rewrite (delete_loop_once _ _ _ _ _ _ l n [] [] ls2 post); try done.
      * simpl. eexists. split; [done|]. split; [|done].
        exists ls2. simpl. split; [done|].
        rewrite Htl. destruct ls2 as [|l2 ls2]; [|done].
        destruct post; [|done]. exfalso. by apply Hmany.
      * constructor.
Qed.

End wf_facts.

(** * Every reachable list is sound *)

Section sound_facts.
Import LinkedList.
Context {A : Type} `{EqDecision A}.
Implicit Types (h : list (Node A)) (c : t A) (p q r : option nat).
Implicit Types (ls : list nat) (xs acc : list A) (item : A).

Lemma chain_ordered h p ls xs : chain h p ls xs -> ordered h ls.
Proof.
  unfold chain. induction 1 as [|l n ls xs Hl Htl IH]; intros j l0 Hj.
  - done.
  - destruct j as [|j]; simpl in Hj.
    + injection Hj as <-. exists n. split; [done|].
      intros l' Hnext. exists 1%nat. split; [lia|].
      rewrite Hnext in Htl. by inversion Htl.
    + destruct (IH _ _ Hj) as (n0 & Hn0 & Hdown). exists n0. split; [done|].
      intros l' Hnext. destruct (Hdown _ Hnext) as (j' & Hlt & Hj').
      exists (S j'). split; [lia | done].
Qed.

(** In an ordered store, following [next] from a node comes to an end. *)
Lemma ordered_chain h ls k j l :
  ordered h ls -> ls !! j = Some l -> (Datatypes.length ls - j <= k)%nat ->
  exists ls' xs, chain h (Some l) ls' xs.
Proof.
  intros Hord. revert j l. induction k as [|k IH]; intros j l Hj Hk.
  - apply lookup_lt_Some in Hj. lia.
  - destruct (Hord _ _ Hj) as (n & Hn & Hdown).
    destruct (next n) as [l'|] eqn:Hnext.
    + destruct (Hdown _ eq_refl) as (j' & Hlt & Hj').
      destruct (IH j' l' Hj') as (ls' & xs & Hc); [lia|].
      exists (l :: ls'), (data n :: xs). econstructor; [done|].
      by rewrite Hnext.
    + exists [l], [data n]. econstructor; [done|]. rewrite Hnext. constructor.
Qed.

Lemma ordered_within_chain h ls p :
  ordered h ls -> (forall l, p = Some l -> l ∈ ls) ->
  exists ls' xs, chain h p ls' xs.
Proof.
  intros Hord Hin. destruct p as [l|].
  2: { exists (@nil nat), (@nil A). constructor. }
  pose proof (Hin l eq_refl) as Hl.
  apply list_elem_of_lookup in Hl as [j Hj].
  eapply (ordered_chain _ _ (Datatypes.length ls)); [done | done | lia].
Qed.

(** Redirecting a node to a node further down keeps the store ordered. *)
Lemma ordered_alter h ls i pv q :
  ordered h ls -> NoDup ls -> ls !! i = Some pv ->
  (forall l', q = Some l' -> exists j', (i < j')%nat /\ ls !! j' = Some l') ->
  ordered (alter (set_next q) pv h) ls.
Proof.
  intros Hord Hnd Hi Hq j l Hj. destruct (Hord _ _ Hj) as (n & Hn & Hdown).
  destruct (decide (pv = l)) as [->|Hne].
  - assert (i = j) as -> by (by eapply NoDup_lookup).
    exists (set_next q n). split; [by apply lookup_alter_eq | done].
  - exists n. split; [by rewrite list_lookup_alter_ne | done].
Qed.

(** One hit of the loop of [delete] keeps what the loop relies on. *)
Lemma unlink_sound ls c previous_node l n j :
  NoDup ls -> ordered (heap c) ls ->
  (forall l0, head c = Some l0 -> l0 ∈ ls) ->
  (forall tl, tail c = Some tl ->
     exists n0, heap c !! tl = Some n0 /\ next n0 = None) ->
  (forall pv, previous_node = Some pv ->
     exists i n0, ls !! i = Some pv /\ heap c !! pv = Some n0 /\
                  next n0 = Some l) ->
  ls !! j = Some l -> heap c !! l = Some n ->
  let c1 := unlink previous_node l n c in
  ordered (heap c1) ls /\
  (forall l0, head c1 = Some l0 -> l0 ∈ ls) /\
  (forall tl, tail c1 = Some tl ->
     exists n0, heap c1 !! tl = Some n0 /\ next n0 = None) /\
  heap c1 !! l = Some n.
Proof.
  intros Hnd Hord Hhd Htl Hprev Hj Hn.
  assert (forall l', next n = Some l' ->
            exists j', (j < j')%nat /\ ls !! j' = Some l') as Hdown.
  { destruct (Hord _ _ Hj) as (n0 & Hn0 & Hdown).
    rewrite Hn in Hn0. by injection Hn0 as <-. }
  destruct previous_node as [pv|]; simpl.
  - destruct (Hprev pv eq_refl) as (i & np & Hi & Hnp & Hnext).
    assert (i < j)%nat as Hij.
    { destruct (Hord _ _ Hi) as (n0 & Hn0 & Hdn). rewrite Hnp in Hn0.
      injection Hn0 as <-. destruct (Hdn _ Hnext) as (j' & Hlt & Hj').
      by rewrite (NoDup_lookup _ _ _ _ Hnd Hj Hj'). }
    assert (pv <> l) as Hne.
    { intros ->. pose proof (NoDup_lookup _ _ _ _ Hnd Hi Hj). lia. }
    case_decide as Hlast; simpl.
    + split; [by eapply ordered_alter|]. split; [done|]. split.
      * intros tl [= <-]. exists (set_next None np).
        split; [by apply lookup_alter_eq | done].
      * by rewrite list_lookup_alter_ne.
    + split.
      { eapply ordered_alter; [done..|].
        intros l' Hl'. destruct (Hdown _ Hl') as (j' & Hlt & Hj').
        exists j'. split; [lia | done]. }
      split; [done|]. split; [|by rewrite list_lookup_alter_ne].
      intros tl Ht. destruct (Htl _ Ht) as (n0 & Hn0 & Hnone).
      exists n0. split; [|done].
      rewrite list_lookup_alter_ne; [done|]. intros ->. congruence.
  - split; [done|]. split; [|done].
    intros l0 Hl0. destruct (Hdown _ Hl0) as (j' & _ & Hj').
    by eapply list_elem_of_lookup_2.
Qed.

(** The loop of [delete] comes to an end and leaves an ordered store,
    however many nodes hold [item]. *)
Lemma delete_loop_sound ls item fuel :
  NoDup ls -> forall c is_found previous_node current_node,
  ordered (heap c) ls ->
  (forall l, head c = Some l -> l ∈ ls) ->
  (forall tl, tail c = Some tl ->
     exists n, heap c !! tl = Some n /\ next n = None) ->
  (forall pv, previous_node = Some pv ->
     exists i n, ls !! i = Some pv /\ heap c !! pv = Some n /\
                 next n = current_node) ->
  (forall l, current_node = Some l ->
     exists j, ls !! j = Some l /\ (Datatypes.length ls - j <= fuel)%nat) ->
  exists c' is_found',
    delete_loop fuel item c is_found previous_node current_node
      = Some (c', is_found') /\
    ordered (heap c') ls /\
    (forall l, head c' = Some l -> l ∈ ls) /\
    (forall tl, tail c' = Some tl ->
       exists n, heap c' !! tl = Some n /\ next n = None).
Proof.
  intros Hnd. induction fuel as [|fuel IH];
    intros c is_found previous_node [l|] Hord Hhd Htl Hprev Hcur;
    try (by exists c, is_found).
  - destruct (Hcur l eq_refl) as (j & Hj & Hfuel).
    apply lookup_lt_Some in Hj. lia.
  - destruct (Hcur l eq_refl) as (j & Hj & Hfuel).
    destruct (Hord _ _ Hj) as (n & Hn & Hdown).
    simpl. rewrite Hn.
    assert (exists c1,
      c1 = (if bool_decide (data n = item)
            then unlink previous_node l n c else c) /\
      ordered (heap c1) ls /\
      (forall l0, head c1 = Some l0 -> l0 ∈ ls) /\
      (forall tl, tail c1 = Some tl ->
         exists n0, heap c1 !! tl = Some n0 /\ next n0 = None) /\
      heap c1 !! l = Some n) as (c1 & <- & Hord1 & Hhd1 & Htl1 & Hn1).
    { eexists. split; [done|]. case_bool_decide; [|done].
      by eapply unlink_sound. }
    rewrite Hn1. apply IH; try done.
    + intros pv [= <-]. by exists j, n.
    + intros l' Hl'. destruct (Hdown _ Hl') as (j' & Hlt & Hj').
      exists j'. split; [done | lia].
Qed.

Lemma seg_set_data h q p ls xs new_data l :
  seg h q p ls xs -> exists xs', seg (alter (set_data new_data) l h) q p ls xs'.
Proof.
  induction 1 as [|l0 n ls xs Hl _ [xs' IH]]; [exists []; constructor|].
  destruct (decide (l = l0)) as [->|Hne].
  - exists (data (set_data new_data n) :: xs').
    econstructor; [by apply lookup_alter_eq | done].
  - exists (data n :: xs').
    econstructor; [by rewrite list_lookup_alter_ne | done].
Qed.

Lemma replace_loop_shape fuel item new_data h p :
  forall h', replace_loop fuel item new_data h p = Some (Some h') ->
  exists l, h' = alter (set_data new_data) l h.
Proof.
  revert p. induction fuel as [|fuel IH]; intros [l|] h' Hr; simpl in Hr;
    try done.
  destruct (h !! l) as [n|]; [|done]. case_decide; [|by eapply IH].
  injection Hr as <-. by exists l.
Qed.

Lemma replace_loop_total fuel item new_data h p ls xs :
  chain h p ls xs -> (Datatypes.length ls <= fuel)%nat ->
  is_Some (replace_loop fuel item new_data h p).
Proof.
  unfold chain. intros Hc. revert fuel.
  induction Hc as [|l n ls xs Hl _ IH]; intros fuel Hfuel; simpl in *.
  - by destruct fuel.
  - destruct fuel as [|fuel]; [lia|]. simpl. rewrite Hl.
    case_decide; [done|]. apply IH. lia.
Qed.

Lemma sound_init : sound (@init A).
Proof. split; [exists [], []; constructor | done]. Qed.

Lemma sound_append item c : sound c -> sound (append item c).
Proof.
  intros [(ls & xs & Hc) Htl]. unfold append.
  destruct (tail c) as [tl|] eqn:Ht.
  - destruct (Htl tl eq_refl) as (nt & Hnt & Hnone).
    pose proof (lookup_lt_Some _ _ _ Hnt) as Hlt.
    split; simpl.
    + destruct (decide (tl ∈ ls)) as [Hin|Hni].
      * apply list_elem_of_split in Hin as (ls1 & ls2 & ->).
        pose proof (chain_NoDup _ _ _ _ Hc) as Hnd.
        apply NoDup_app in Hnd as (_ & Hdisj & _).
        destruct (seg_split _ _ _ _ _ _ Hc) as (q & xs1 & xs2 & -> & H1 & H2).
        inversion H2 as [|l n ls' xs' Hl Hrest]; subst.
        rewrite Hnt in Hl. injection Hl as <-. rewrite Hnone in Hrest.
        inversion Hrest; subst.
        exists ((ls1 ++ [tl]) ++ [Datatypes.length (heap c)]). eexists.
        apply seg_app with (q := Some (Datatypes.length (heap c)));
          [apply seg_app with (q := Some tl)|].
        -- apply seg_alter; [by apply seg_grow|].
           intros Hin. apply (Hdisj _ Hin). left.
        -- eapply (seg_cons _ _ tl
                     (set_next (Some (Datatypes.length (heap c))) nt) [] []);
             [|constructor].
           apply lookup_alter_eq. by apply lookup_app_l_Some.
        -- eapply (seg_cons _ _ _ (mkNode item None) [] []); [|constructor].
           rewrite list_lookup_alter_ne by lia. by apply list_lookup_middle.
      * exists ls, xs. apply seg_alter; [by apply seg_grow | done].
    + intros tl' [= <-]. exists (mkNode item None). split; [|done].
      rewrite list_lookup_alter_ne by lia. by apply list_lookup_middle.
  - split; simpl.
    + exists [Datatypes.length (heap c)]. eexists.
      econstructor; [by apply list_lookup_middle | constructor].
    + intros tl' [= <-]. exists (mkNode item None).
    split; [by apply list_lookup_middle | done].
Qed.

Lemma sound_prepend item c : sound c -> sound (prepend item c).
Proof.
  intros [(ls & xs & Hc) Htl]. unfold prepend, is_empty.
  case_bool_decide as Hhd; split; simpl.
  - exists [Datatypes.length (heap c)]. eexists.
    econstructor; [by apply list_lookup_middle | constructor].
  - intros tl' [= <-]. exists (mkNode item None).
    split; [by apply list_lookup_middle | done].
  - exists (Datatypes.length (heap c) :: ls). eexists.
    econstructor; [by apply list_lookup_middle|]. by apply seg_grow.
  - intros tl Ht. destruct (Htl _ Ht) as (n & Hn & Hnone).
    exists n. split; [by apply lookup_app_l_Some | done].
Qed.

(** [delete] always comes back, and leaves a sound list. *)
Lemma sound_delete item c :
  sound c -> exists c', final (delete item c) = Some c' /\ sound c'.
Proof.
  intros Hs. pose proof Hs as [(ls & xs & Hc) Htl]. unfold delete, is_empty.
  case_bool_decide as Hhd; [by exists c|].
  destruct (head c) as [l|] eqn:Hl; [clear Hhd|done].
  inversion Hc as [|l' n ls' xs' Hn Hrest]; subst.
  case_decide as Hone.
  - simpl. rewrite Hn. case_decide; [|by exists c].
    eexists. split; [done|]. split; [|done].
    exists [], []. constructor.
  - destruct (delete_loop_sound (l :: ls') item (Datatypes.length (heap c))
                (chain_NoDup _ _ _ _ Hc) c false None (Some l))
      as (c' & is_found' & -> & Hord' & Hhd' & Htl'); try done.
    + by eapply chain_ordered.
    + intros l0 Hl0. rewrite Hl in Hl0. injection Hl0 as <-. left.
    + intros l0 [= <-]. exists 0%nat. split; [done|].
      pose proof (chain_length_le _ _ _ _ Hc). lia.
    + exists (with_size (size c' - 1) c').
      split; [by destruct is_found'|]. split; [|done].
      by eapply ordered_within_chain.
Qed.

(** [replace] always comes back, and leaves a sound list. *)
Lemma sound_replace item new_data c :
  sound c -> exists c', final (replace item new_data c) = Some c' /\ sound c'.
Proof.
  intros Hs. pose proof Hs as [(ls & xs & Hc) Htl]. unfold replace.
  destruct (replace_loop _ item new_data (heap c) (head c))
    as [[r|]|] eqn:Hloop.
  - destruct (replace_loop_shape _ _ _ _ _ _ Hloop) as [l ->].
    eexists. split; [done|]. split; simpl.
    + destruct (seg_set_data _ _ _ _ _ new_data l Hc) as [xs' Hc'].
      by exists ls, xs'.
    + intros tl Ht. destruct (Htl _ Ht) as (n & Hn & Hnone).
      destruct (decide (l = tl)) as [->|Hne].
      * exists (set_data new_data n). split; [by apply lookup_alter_eq | done].
      * exists n. split; [by rewrite list_lookup_alter_ne | done].
  - by exists c.
  - destruct (replace_loop_total (Datatypes.length (heap c)) item new_data
                _ _ _ _ Hc) as [? Hsome]; [by eapply chain_length_le|].
    congruence.
Qed.

(** Every list a caller can obtain is sound: no sequence of calls makes a
    cycle, so every method comes back on it. *)
Lemma reachable_sound c : reachable c -> sound c.
Proof.
  induction 1 as [|item c _ IH|item c _ IH|item c c' _ IH Hfin
                 |item new_data c c' _ IH Hfin].
  - apply sound_init.
  - by apply sound_append.
  - by apply sound_prepend.
  - destruct (sound_delete item c IH) as (c'' & Hfin' & Hs). congruence.
  - destruct (sound_replace item new_data c IH) as (c'' & Hfin' & Hs).
    congruence.
Qed.

(** [items()] returns on every reachable list. *)
Lemma reachable_items c : reachable c -> exists xs, items c = Some xs.
Proof.
  intros [(ls & xs & Hc) _]%reachable_sound. exists xs.
  apply items_chain. by exists ls.
Qed.

(** [delete] and [replace] come back, returning or raising, on every
    reachable list. *)
Lemma reachable_delete_total item c :
  reachable c -> exists c', final (delete item c) = Some c'.
Proof.
  intros Hs%reachable_sound. destruct (sound_delete item c Hs) as (c' & ? & _).
  by exists c'.
Qed.

Lemma reachable_replace_total item new_data c :
  reachable c -> exists c', final (replace item new_data c) = Some c'.
Proof.
  intros Hs%reachable_sound.
  destruct (sound_replace item new_data c Hs) as (c' & ? & _). by exists c'.
Qed.

End sound_facts.

(** * The linked list operations, as a caller sees them *)

Section chain_claims.
Import LinkedList.
Context {A : Type} `{EqDecision A}.
Implicit Types (c : t A) (xs : list A) (item : A).

Lemma of_list_snoc xs item : of_list (xs ++ [item]) = append item (of_list xs).
Proof. unfold of_list. by rewrite foldl_snoc. Qed.

Lemma reachable_of_list xs : reachable (of_list xs).
Proof.
  induction xs as [|item xs IH] using rev_ind; [constructor|].
  rewrite of_list_snoc. by constructor.
Qed.

Lemma counted_of_list xs : counted (of_list xs) xs.
Proof.
  induction xs as [|item xs [IH1 IH2]] using rev_ind.
  - split; [apply wf_init | done].
  - rewrite of_list_snoc. split; [by apply wf_append|].
    rewrite size_append, IH2, length_app. simpl. lia.
Qed.

(** C10.  When [item] equals no entry of the list, [delete(item)] raises
    [ValueError] and leaves the nodes as they were: the store, [head]
    and [tail] are unchanged, and so is what [items()] returns; the only
    attribute that can differ is the count [size].  The entries of the
    list are what [items()] returns, and it does return on every list a
    caller can obtain ([reachable_items]). *)
Theorem failed_delete_keeps_structure item c xs :
  items c = Some xs -> item ∉ xs ->
  exists c',
    delete item c = Raises ValueError c' /\
    heap c' = heap c /\ head c' = head c /\ tail c' = tail c /\
    items c' = Some xs /\
    c' = with_size (size c') c.
Proof.
  intros Hit Hni. rewrite (delete_miss item c xs) by done.
  eexists. split; [done|]. by case_decide; destruct c.
Qed.

(** How a failed [delete] leaves the count.  When [item] equals no entry
    of the list, [delete(item)] raises [ValueError] and the branch taken
    decides the count: the empty list is left as it is; a list with two
    or more nodes, in every state that calls of the methods lead to,
    has its count decremented; a list with one node is left as it is
    when it is well formed ([head] and [tail] are that node), and has
    its count decremented when [tail] is another node. *)
Theorem failed_delete_count_rule item c xs :
  items c = Some xs -> item ∉ xs ->
  (xs = [] -> delete item c = Raises ValueError c) /\
  (reachable c -> (2 <= Datatypes.length xs)%nat ->
   delete item c = Raises ValueError (with_size (size c - 1) c) /\
   length (with_size (size c - 1) c) = length c - 1) /\
  (wf c xs -> Datatypes.length xs = 1%nat ->
   delete item c = Raises ValueError c) /\
  (Datatypes.length xs = 1%nat -> head c <> tail c ->
   delete item c = Raises ValueError (with_size (size c - 1) c) /\
   length (with_size (size c - 1) c) = length c - 1).
Proof.
  intros Hit Hni. rewrite (delete_miss item c xs) by done.
  destruct (proj1 (items_chain c xs) Hit) as [ls Hc].
  split; [|split; [|split]].
  - intros ->. inversion Hc as [Hhd|]. by rewrite decide_True by (by left).
  - intros [_ Htl]%reachable_sound Hlen. split; [|done].
    destruct xs as [|x1 [|x2 xs]]; simpl in Hlen; try lia.
    inversion Hc as [|l n ls' xs' Hl Hrest Hhd]; subst.
    inversion Hrest as [|l2 n2 ls2 xs2 Hl2 _ Hnext]; subst.
    rewrite decide_False; [done|]. intros [Hnone|Heq]; [congruence|].
    destruct (Htl l) as (n' & Hl' & Hnone); [congruence|]. congruence.
  - intros Hwf Hlen. pose proof (wf_head_tail _ _ Hwf) as Hht.
    destruct xs as [|x1 [|x2 xs]]; simpl in Hlen; try lia.
    destruct Hht as [Heq _]. by rewrite decide_True by (by right).
  - intros Hlen Hne. split; [|done].
    destruct xs as [|x1 xs]; simpl in Hlen; try lia.
    inversion Hc as [|l n ls' xs' Hl Hrest Hhd]; subst.
    rewrite decide_False; [done|]. intros [Hnone|Heq]; congruence.
Qed.

End chain_claims.

(** * More on the linked list *)

Section chain_more.
Import LinkedList.
Context {A : Type} `{EqDecision A}.
Implicit Types (h : list (Node A)) (c : t A) (p q : option nat).
Implicit Types (ls : list nat) (xs pre post acc : list A) (item : A).

(** X1.  [LinkedList(xs)] holds the entries [xs] in the order given:
    [items()] returns them, [length()] is their number, and the list is
    well formed. *)
Theorem constructor_round_trip xs :
  items (of_list xs) = Some xs /\
  length (of_list xs) = Z.of_nat (Datatypes.length xs) /\
  wf (of_list xs) xs.
Proof.
  destruct (counted_of_list xs) as [Hwf Hsz].
  split; [by apply wf_items|]. by split.
Qed.

(** X2.  On a well-formed list with a right count, [append(item)] puts
    [item] behind the entries there are, adds one to the count, and
    leaves the list well formed. *)
Theorem append_at_tail item c xs :
  counted c xs ->
  items (append item c) = Some (xs ++ [item]) /\
  length (append item c) = length c + 1 /\
  counted (append item c) (xs ++ [item]).
Proof.
  intros [Hwf Hsz]. pose proof (wf_append item c xs Hwf) as Hwf'.
  split; [by apply wf_items|]. split; [apply size_append|].
  split; [done|]. rewrite size_append, Hsz, length_app. simpl. lia.
Qed.

(** X3.  [prepend(item)] puts [item] in front of the entries there are
    and adds one to the count, on every list, well formed or not; a
    well-formed list stays well formed. *)
Theorem prepend_at_head item c xs :
  items c = Some xs ->
  items (prepend item c) = Some (item :: xs) /\
  length (prepend item c) = length c + 1 /\
  (wf c xs -> wf (prepend item c) (item :: xs)).
Proof.
  intros [ls Hc]%items_chain.
  split; [|split; [apply size_prepend | apply wf_prepend]].
  apply items_chain. unfold prepend, is_empty.
  case_bool_decide as Hhd; simpl.
  - rewrite Hhd in Hc. inversion Hc; subst.
    exists [Datatypes.length (heap c)].
    eapply (seg_cons _ _ _ (mkNode item None) [] []);
      [by apply list_lookup_middle | constructor].
  - exists (Datatypes.length (heap c) :: ls).
    eapply (seg_cons _ _ _ (mkNode item (head c)));
      [by apply list_lookup_middle | by apply seg_grow].
Qed.

(** X4.  When [tail] is a node that is not reachable from [head] (as
    [delete] can leave it), [append(item)] links the new node behind that
    node: the count goes up by one, and [items()] is as before, without
    [item]. *)
Theorem append_behind_unlinked_tail item c ls xs tl :
  chain (heap c) (head c) ls xs -> tail c = Some tl -> tl ∉ ls ->
  items (append item c) = Some xs /\
  length (append item c) = length c + 1.
Proof.
  intros Hc Htl Hni. split; [|apply size_append].
  apply items_chain. exists ls. unfold append. rewrite Htl. simpl.
  apply seg_alter; [by apply seg_grow | done].
Qed.

Lemma find_loop_chain fuel (quality : A -> bool) h p ls xs :
  chain h p ls xs -> (Datatypes.length ls <= fuel)%nat ->
  find_loop fuel quality h p = Some (List.find quality xs).
Proof.
  unfold chain. intros Hc. revert fuel.
  induction Hc as [|l n ls xs Hl _ IH]; intros fuel Hfuel; simpl in *.
  - by destruct fuel.
  - destruct fuel as [|fuel]; [lia|]. simpl. rewrite Hl.
    destruct (quality (data n)); [done|]. apply IH. lia.
Qed.

Lemma find_items (quality : A -> bool) c xs :
  items c = Some xs -> find quality c = Some (List.find quality xs).
Proof.
  intros [ls Hc]%items_chain. unfold find, is_empty.
  case_bool_decide as Hhd.
  - rewrite Hhd in Hc. by inversion Hc.
  - apply (find_loop_chain _ _ _ _ ls); [done | by eapply chain_length_le].
Qed.

(** X5.  [find(quality)] returns the first entry, in the order of
    [items()], for which [quality] gives [True], and [None] when there is
    none (on the empty list too); the list is not written. *)
Theorem find_first (quality : A -> bool) c xs :
  items c = Some xs ->
  find quality c = Some (List.find quality xs) /\
  (forall x, find quality c = Some (Some x) ->
     exists pre post,
       xs = pre ++ x :: post /\ quality x = true /\
       Forall (fun y => quality y = false) pre) /\
  (find quality c = Some None <-> Forall (fun y => quality y = false) xs).
Proof.
  intros Hit. rewrite (find_items quality c xs Hit). split; [done|].
  clear Hit. split.
  - intros x [= Hx]. induction xs as [|y xs IH]; simpl in Hx; [done|].
    destruct (quality y) eqn:Hy.
    + injection Hx as <-. by exists [], xs.
    + destruct (IH Hx) as (pre & post & -> & Hq & Hpre).
      exists (y :: pre), post. split; [done|]. split; [done|].
      by constructor.
  - induction xs as [|y xs IH]; simpl; [by split|].
    destruct (quality y) eqn:Hy.
    + split; [done|]. intros Hall. inversion Hall; congruence.
    + rewrite IH. split; [by constructor|]. by inversion 1.
Qed.

(** X6.  [replace(item, new_data)] overwrites the first entry equal to
    [item] where it stands and returns: the entries before and behind it,
    [head], [tail] and the count are as before.  When no entry equals
    [item] it raises [ValueError] and the list is unchanged. *)
Theorem replace_first item new_data c xs :
  items c = Some xs ->
  (item ∉ xs -> replace item new_data c = Raises ValueError c) /\
  (forall pre post, xs = pre ++ item :: post -> item ∉ pre ->
     exists c',
       replace item new_data c = Returns tt c' /\
       items c' = Some (pre ++ new_data :: post) /\
       head c' = head c /\ tail c' = tail c /\ length c' = length c).
Proof.
  intros Hit. split; [by apply replace_miss|].
  intros pre post -> Hpre. apply items_chain in Hit as [ls Hc].
  pose proof (chain_NoDup _ _ _ _ Hc) as Hnd.
  pose proof (chain_length_le _ _ _ _ Hc) as Hle.
  destruct (seg_split_entries _ _ _ _ _ _ Hc) as (q & ls1 & ls2' & -> & H1 & H2).
  inversion H2 as [|l n ls2 xs2 Hl Hrest]; subst.
  apply NoDup_app in Hnd as (_ & Hdisj & [Hl2 _]%NoDup_cons).
  rewrite length_app in Hle. simpl in Hle.
  unfold replace.
  rewrite (replace_loop_skip _ _ _ _ _ _ _ _ H1 Hpre) by lia.
  destruct (Datatypes.length (heap c) - Datatypes.length ls1)%nat
    as [|fuel] eqn:Hfuel; [lia|].
  simpl. rewrite Hl, decide_True by done.
  eexists. split; [done|]. split; [|done].
  apply items_chain. exists (ls1 ++ l :: ls2). simpl.
  eapply seg_app.
  - apply seg_alter; [done|]. intros Hin. apply (Hdisj _ Hin). left.
  - change new_data with (data (set_data new_data n)).
    econstructor; [by apply lookup_alter_eq|]. by apply seg_alter.
Qed.

(** X7.  On a well-formed list with a right count that holds [item]
    exactly once, [delete(item)] returns with that entry removed, the
    others in their order, the count one less, and the list well
    formed. *)
Theorem delete_stored_once item c pre post :
  counted c (pre ++ item :: post) -> item ∉ pre -> item ∉ post ->
  exists c',
    delete item c = Returns tt c' /\
    items c' = Some (pre ++ post) /\
    length c' = length c - 1 /\
    counted c' (pre ++ post).
Proof.
  intros [Hwf Hsz] Hpre Hpost.
  destruct (delete_once item c pre post Hwf Hpre Hpost)
    as (c' & Hdel & Hwf' & Hsz').
  exists c'. split; [done|]. split; [by apply wf_items|]. split; [done|].
  split; [done|]. rewrite Hsz', Hsz, !length_app. simpl. lia.
Qed.

(** X8.  No sequence of calls makes a cycle or a reference into nothing:
    on every list a caller can obtain, [items], [find], [delete] and
    [replace] come back (returning or raising), and [tail], when there
    is one, is a node without a [next]. *)
Theorem methods_come_back c :
  reachable c ->
  is_Some (items c) /\
  (forall quality, is_Some (find quality c)) /\
  (forall item, is_Some (final (delete item c))) /\
  (forall item new_data, is_Some (final (replace item new_data c))) /\
  (forall tl, tail c = Some tl ->
     exists n, heap c !! tl = Some n /\ next n = None).
Proof.
  intros Hr. pose proof (reachable_sound c Hr) as Hs.
  destruct (reachable_items c Hr) as [xs Hit].
  split; [by exists xs|]. split; [|split; [|split]].
  - intros quality. by rewrite (find_items quality c xs).
  - intros item. destruct (sound_delete item c Hs) as (c' & -> & _). done.
  - intros item new_data.
    destruct (sound_replace item new_data c Hs) as (c' & -> & _). done.
  - apply Hs.
Qed.

Lemma collect_chain h p ls xs acc fuel :
  chain h p ls xs -> (Datatypes.length ls < fuel)%nat ->
  collect (__next__ h) fuel (llIterator p) acc = Some (acc ++ xs, None).
Proof.
  unfold chain, llIterator. intros Hc. revert fuel acc.
  induction Hc as [|l n ls xs Hl _ IH]; intros fuel acc Hfuel;
    (destruct fuel as [|fuel]; [simpl in Hfuel; lia|]); simpl.
  - by rewrite app_nil_r.
  - rewrite Hl. rewrite IH by (simpl in Hfuel; lia). by rewrite <- app_assoc.
Qed.

(** X9.  An [llIterator] started at [head] yields the entries of the
    list in the order of [items()] and then raises [StopIteration], and
    it keeps raising it from then on. *)
Theorem llIterator_yields_items c xs fuel :
  items c = Some xs -> (Datatypes.length xs < fuel)%nat ->
  collect (__next__ (heap c)) fuel (llIterator (head c)) [] = Some (xs, None) /\
  __next__ (heap c) None = Some (None, None).
Proof.
  intros [ls Hc]%items_chain Hfuel. split; [|done].
  rewrite (collect_chain _ _ ls xs); [done | done |].
  by rewrite (seg_length _ _ _ _ _ Hc).
Qed.
Lemma bool_decide_elem_cons item x xs :
  bool_decide (item ∈ x :: xs) = bool_decide (x = item) || bool_decide (item ∈ xs).
Proof.
  destruct (decide (x = item)) as [->|Hne].
  - rewrite (bool_decide_eq_true_2 (item ∈ item :: xs)) by left.
    by rewrite (bool_decide_eq_true_2 (item = item)).
  - rewrite (bool_decide_eq_false_2 (x = item)) by done. simpl.
    apply bool_decide_ext. rewrite elem_of_cons.
    split; [intros [?|?]; [congruence | done] | by right].
Qed.

(** One turn of the loop of [delete]. *)
Lemma delete_loop_step fuel item c is_found previous_node l n n' :
  heap c !! l = Some n ->
  heap (if bool_decide (data n = item)
        then unlink previous_node l n c else c) !! l = Some n' ->
  delete_loop (S fuel) item c is_found previous_node (Some l) =
  delete_loop fuel item
    (if bool_decide (data n = item) then unlink previous_node l n c else c)
    (bool_decide (data n = item) || is_found) (Some l) (next n').
Proof. intros Hl Hl'. simpl. rewrite Hl. cbn zeta. by rewrite Hl'. Qed.

(** The loop of [delete] from a node [pv] on, on the rest [ls] of a
    well-formed list: what is then reachable from [pv], and from the node
    behind it. *)
Lemma delete_loop_unlinked item ls :
  forall xs fuel c is_found pv np cur,
  chain (heap c) cur ls xs ->
  heap c !! pv = Some np -> next np = cur -> pv ∉ ls ->
  (ls <> [] -> tail c = last ls) ->
  (Datatypes.length ls <= fuel)%nat ->
  exists c',
    delete_loop fuel item c is_found (Some pv) cur
      = Some (c', is_found || bool_decide (item ∈ xs)) /\
    head c' = head c /\ size c' = size c /\
    (forall l, l <> pv -> l ∉ ls -> heap c' !! l = heap c !! l) /\
    (exists np' lsA,
       heap c' !! pv = Some np' /\ data np' = data np /\
       chain (heap c') (next np') lsA (unlinked item xs)) /\
    (exists lsB,
       chain (heap c') cur lsB
         (match xs with [] => [] | y :: r => y :: unlinked item r end)).
Proof.
  induction ls as [|l rest IH];
    intros xs fuel c is_found pv np cur Hc Hpv Hnext Hni Htl Hfuel.
  - inversion Hc; subst. exists c.
    split; [by destruct fuel; simpl; rewrite orb_false_r|].
    split; [done|]. split; [done|]. split; [done|]. split.
    + exists np, []. split; [done|]. split; [done|].
      replace (next np) with (@None nat) by done. constructor.
    + exists []. constructor.
  - pose proof (chain_NoDup _ _ _ _ Hc) as [Hl_rest Hnd]%NoDup_cons.
    inversion Hc as [|l' n ls' xr Hl Hrest Hcur]; subst.
    apply not_elem_of_cons in Hni as [Hne Hni].
    destruct fuel as [|fuel]; [simpl in Hfuel; lia|].
    simpl in Hfuel.
    set (hit := bool_decide (data n = item)).
    set (c1 := if hit then unlink (Some pv) l n c else c).
    assert (
      heap c1 = (if hit then alter (set_next (next n)) pv (heap c) else heap c) /\
      head c1 = head c /\ size c1 = size c /\
      (rest <> [] -> tail c1 = last rest))
      as (Hheap1 & Hhd1 & Hsz1 & Htl1).
    { subst c1. specialize (Htl ltac:(done)).
      destruct hit; [|repeat split; intros ?; rewrite Htl;
                       by destruct rest].
      unfold unlink. case_decide as Hlast; simpl.
      - destruct rest as [|l2 rest].
        + assert (next n = None) as -> by (by inversion Hrest). done.
        + exfalso. rewrite Htl in Hlast. by eapply last_cons_ne.
      - repeat split. intros ?. rewrite Htl. by destruct rest. }
    assert (heap c1 !! l = Some n) as Hl1.
    { rewrite Hheap1. destruct hit; [|done].
      by rewrite list_lookup_alter_ne. }
    assert (chain (heap c1) (next n) rest xr) as Hrest1.
    { rewrite Hheap1. destruct hit; [|done]. by apply seg_alter. }
    rewrite (delete_loop_step _ _ _ _ _ _ _ n Hl Hl1). fold hit c1.
    destruct (IH xr fuel c1 (hit || is_found) l n (next n) Hrest1 Hl1 eq_refl
                Hl_rest Htl1 ltac:(lia))
      as (c' & Hloop & Hhd' & Hsz' & Hframe & (nl' & lsA & Hnl' & Hdata & HA)
          & (lsB & HB)).
    exists c'. split.
    { rewrite Hloop. do 2 f_equal. rewrite bool_decide_elem_cons. fold hit.
      by destruct hit, is_found, (bool_decide (item ∈ xr)). }
    split; [congruence|]. split; [congruence|].
    assert (chain (heap c') (Some l) (l :: lsA) (data n :: unlinked item xr))
      as Hfrom_l.
    { rewrite <- Hdata. by econstructor. }
    assert (heap c' !! pv = heap c1 !! pv) as Hpv'
      by (apply Hframe; [done | done]).
    split; [|split].
    + intros l0 Hl0 Hl0ni. apply not_elem_of_cons in Hl0ni as [Hl0l Hl0r].
      rewrite (Hframe l0 Hl0l Hl0r), Hheap1.
      destruct hit; [|done]. by rewrite list_lookup_alter_ne.
    + rewrite Hpv', Hheap1. subst hit. case_bool_decide as Hhit.
      * exists (set_next (next n) np), lsB.
        split; [by apply lookup_alter_eq|]. split; [done|].
        simpl. by rewrite decide_True.
      * exists np, (l :: lsA). split; [done|]. split; [done|].
        simpl. rewrite decide_False by done. by rewrite <- Hcur.
    + by exists (l :: lsA).
Qed.
(** [delete] on a well-formed list, whatever it holds. *)
Lemma delete_wf item c xs :
  wf c xs ->
  exists c',
    delete item c =
      (if decide (item ∈ xs) then Returns tt c' else Raises ValueError c') /\
    items c' = Some (unlinked item xs) /\
    size c' =
      (if decide ((item ∉ xs) /\ (Datatypes.length xs <= 1)%nat)
       then size c else size c - 1).
Proof.
  intros Hwf. pose proof (wf_head_tail _ _ Hwf) as Hht.
  pose proof Hwf as (ls & Hc & Htl).
  pose proof (chain_NoDup _ _ _ _ Hc) as Hnd.
  pose proof (chain_length_le _ _ _ _ Hc) as Hle.
  unfold delete, is_empty.
  destruct xs as [|x [|y xr]].
  - (* no node *)
    destruct Hht as [Hhd _]. rewrite bool_decide_eq_true_2 by done.
    exists c. rewrite decide_False by apply not_elem_of_nil.
    split; [done|]. split; [by apply wf_items|].
    rewrite decide_True; [done|]. split; [apply not_elem_of_nil | simpl; lia].
  - (* one node *)
    destruct Hht as [Heq Hhd].
    rewrite bool_decide_eq_false_2, decide_True by done.
    inversion Hc as [|l n ls' xs' Hl Hrest Hhd']; subst.
    change (Some l ≫= (heap c !!.)) with (heap c !! l). rewrite Hl.
    destruct (decide (data n = item)) as [Hhit|Hmiss].
    + eexists. rewrite decide_True by (rewrite Hhit; left).
      split; [done|]. split.
      * apply items_chain. exists []. simpl.
        rewrite decide_True by done. constructor.
      * simpl. rewrite decide_False; [done|]. intros [Hni _]. apply Hni.
        rewrite Hhit. left.
    + exists c.
      assert (item ∉ [data n]) as Hni.
      { intros ->%list_elem_of_singleton. done. }
      rewrite decide_False by done. split; [done|]. split.
      * simpl. rewrite decide_False by done. by apply wf_items.
      * rewrite decide_True; [done|]. split; [done | simpl; lia].
  - (* two nodes or more *)
    destruct Hht as [Hne Hhd].
    rewrite bool_decide_eq_false_2, decide_False by done.
    inversion Hc as [|l n ls' xs' Hl Hrest Hhd']; subst.
    apply NoDup_cons in Hnd as [Hl_rest Hnd].
    assert (ls' <> []) as Hrest_ne.
    { intros ->. inversion Hrest. }
    destruct (Datatypes.length (heap c)) as [|fuel] eqn:Hfuel;
      [simpl in Hle; lia|].
    set (hit := bool_decide (data n = item)).
    set (c1 := if hit then unlink None l n c else c).
    assert (heap c1 = heap c /\ size c1 = size c /\ tail c1 = tail c /\
            head c1 = (if hit then next n else Some l))
      as (Hheap1 & Hsz1 & Htl1 & Hhd1).
    { subst c1. destruct hit; simpl; by rewrite <- ?Hhd'. }
    assert (heap c1 !! l = Some n) as Hl1 by (by rewrite Hheap1).
    rewrite (delete_loop_step _ _ _ _ _ _ _ n Hl Hl1). fold hit c1.
    destruct (delete_loop_unlinked item ls' (y :: xr) fuel c1 (hit || false)
                l n (next n))
      as (c' & -> & Hhd2 & Hsz2 & _ & (nl' & lsA & Hnl' & Hdata & HA)
          & (lsB & HB)); try done.
    { by rewrite Hheap1. }
    { intros _. rewrite Htl1, Htl. by destruct ls'. }
    { simpl in Hle. lia. }
    exists (with_size (size c' - 1) c'). split; [|split].
    + rewrite orb_false_r.
      replace (hit || bool_decide (item ∈ y :: xr))
        with (bool_decide (item ∈ data n :: y :: xr))
        by (by rewrite (bool_decide_elem_cons item (data n))).
      by case_bool_decide; [rewrite decide_True | rewrite decide_False].
    + rewrite items_with_size. apply items_chain. rewrite Hhd2, Hhd1.
      change (unlinked item (data n :: y :: xr))
        with (if decide (data n = item) then y :: unlinked item xr
              else data n :: unlinked item (y :: xr)).
      subst hit. case_bool_decide as Hhit.
      * rewrite decide_True by done. by exists lsB.
      * rewrite decide_False by done. exists (l :: lsA).
        rewrite <- Hdata. by econstructor.
    + simpl. rewrite decide_False; [lia|]. intros [_ ?]. simpl in *. lia.
Qed.


(** [delete] never unlinks a node that holds another entry. *)
Lemma unlinked_others item xs :
  unlinked item xs `sublist_of` xs /\
  filter (fun x => x <> item) (unlinked item xs) = filter (fun x => x <> item) xs.
Proof.
  assert (forall k xs, (Datatypes.length xs <= k)%nat ->
    unlinked item xs `sublist_of` xs /\
    filter (fun x => x <> item) (unlinked item xs)
      = filter (fun x => x <> item) xs) as Hgen.
  { clear xs. induction k as [|k IH]; intros [|x xs] Hlen; simpl in *;
      try done; try lia.
    destruct (decide (x = item)) as [->|Hne].
    - rewrite (filter_cons_False (fun x => x <> item) item) by tauto.
      destruct xs as [|y r]; [by split; [apply sublist_nil_l|]|].
      destruct (IH r ltac:(simpl in Hlen; lia)) as [Hsub Hfil].
      split; [by apply sublist_cons_r; left; apply sublist_skip|].
      destruct (decide (y <> item)).
      + rewrite !filter_cons_True by done. by rewrite Hfil.
      + rewrite !filter_cons_False by done. done.
    - destruct (IH xs ltac:(lia)) as [Hsub Hfil].
      split; [by apply sublist_skip|].
      rewrite !filter_cons_True by done. by rewrite Hfil. }
  by apply (Hgen (Datatypes.length xs)).
Qed.

(** The first node that holds [item] is always unlinked. *)
Lemma unlinked_first item pre post :
  item ∉ pre ->
  unlinked item (pre ++ item :: post) =
  pre ++ match post with [] => [] | y :: r => y :: unlinked item r end.
Proof.
  induction pre as [|x pre IH]; simpl.
  - intros _. by rewrite decide_True.
  - intros [Hne Hni]%not_elem_of_cons.
    rewrite decide_False by done. by rewrite IH.
Qed.

(** X11.  Whatever a well-formed list holds, [delete(item)] unlinks no
    node that holds another entry and keeps the order: the entries left
    are a sublist of those before, with the same entries other than
    [item]; and the first node that holds [item] is unlinked, the entries
    before it staying as they are. *)
Theorem delete_removes_only_item item c xs c' :
  wf c xs -> final (delete item c) = Some c' ->
  exists ys,
    items c' = Some ys /\
    ys `sublist_of` xs /\
    filter (fun x => x <> item) ys = filter (fun x => x <> item) xs /\
    (forall pre post, xs = pre ++ item :: post -> item ∉ pre ->
       exists ys', ys = pre ++ ys' /\ ys' `sublist_of` post).
Proof.
  intros Hwf Hfin.
  destruct (delete_wf item c xs Hwf) as (c'' & Hdel & Hit & _).
  assert (c'' = c') as ->.
  { rewrite Hdel in Hfin. by destruct (decide (item ∈ xs)); injection Hfin. }
  exists (unlinked item xs). split; [done|].
  destruct (unlinked_others item xs) as [Hsub Hfil].
  split; [done|]. split; [done|].
  intros pre post -> Hpre. rewrite (unlinked_first item pre post Hpre).
  eexists. split; [done|]. destruct post as [|y r]; [done|].
  apply sublist_skip. apply (unlinked_others item r).
Qed.
End chain_more.

(** * The hash table on its representation invariant *)

Section table_facts.
Import HashTable.
Context {K V : Type} `{EqDecision K} `{EqDecision V}.
Variable hash : K -> Z.
Implicit Types (ht : t K V) (key k : K) (value v : V).
Implicit Types (xs pre post : list (K * V)) (xss : list (list (K * V))).

Local Abbreviation _bucket_index := (_bucket_index hash).
Local Abbreviation table_ok := (table_ok hash).

Lemma scan_None key xs : scan key xs = None <-> key ∉ xs.*1.
Proof.
  induction xs as [|[k v] xs IH]; simpl.
  - split; [intros _; apply not_elem_of_nil | done].
  - case_decide as Hk; subst.
    + split; [done|]. intros Hni. exfalso. apply Hni. left.
    + rewrite IH, not_elem_of_cons.
      split; [intros Hni; split; [congruence | done] | by intros [_ Hni]].
Qed.

Lemma scan_Some key xs kv :
  scan key xs = Some kv ->
  exists pre post, xs = pre ++ kv :: post /\ kv.1 = key /\ key ∉ pre.*1.
Proof.
  induction xs as [|[k v] xs IH]; simpl; [done|].
  case_decide as Hk; subst.
  - intros [= <-]. exists [], xs. repeat split. apply not_elem_of_nil.
  - intros (pre & post & -> & Hkey & Hni)%IH.
    exists ((k, v) :: pre), post. repeat split; [done|].
    rewrite fmap_cons, not_elem_of_cons. done.
Qed.

Lemma scan_middle key v pre post :
  key ∉ pre.*1 -> scan key (pre ++ (key, v) :: post) = Some (key, v).
Proof.
  induction pre as [|[k' v'] pre IH]; simpl; intros Hni.
  - by rewrite decide_True.
  - apply not_elem_of_cons in Hni as [Hne Hni].
    rewrite decide_False by done. by apply IH.
Qed.

(** [_bucket_index] is an index into [buckets], unless there are none. *)
Lemma bucket_index_Some key ht :
  buckets ht <> [] ->
  exists i, _bucket_index key ht = Some i /\
            (i < Datatypes.length (buckets ht))%nat.
Proof.
  intros Hne. unfold HashTable._bucket_index.
  assert (Datatypes.length (buckets ht) <> 0%nat) as Hlen
    by (by destruct (buckets ht)).
  rewrite decide_False by lia. eexists. split; [done|].
  pose proof (Z.mod_pos_bound (hash key) (Z.of_nat (Datatypes.length (buckets ht)))).
  lia.
Qed.

Lemma bucket_index_lt key ht i :
  _bucket_index key ht = Some i -> (i < Datatypes.length (buckets ht))%nat.
Proof.
  unfold HashTable._bucket_index. case_decide as Hn; [done|].
  intros [= <-].
  pose proof (Z.mod_pos_bound (hash key) (Z.of_nat (Datatypes.length (buckets ht)))).
  lia.
Qed.

Lemma bucket_index_None key ht :
  _bucket_index key ht = None <-> buckets ht = [].
Proof.
  unfold HashTable._bucket_index. case_decide as Hn.
  - split; [|done]. intros _. destruct (buckets ht); [done|simpl in Hn; lia].
  - split; [done|]. intros Hnil. rewrite Hnil in Hn. done.
Qed.

Lemma bucket_index_store key ht i b z :
  _bucket_index key (store i b ht z) = _bucket_index key ht.
Proof.
  unfold HashTable._bucket_index, store. simpl. by rewrite length_insert.
Qed.

Lemma items_loop_spec (bs : list (LinkedList.t (K * V))) xss acc :
  Forall2 (fun b xs => LinkedList.items b = Some xs) bs xss ->
  items_loop bs acc = Some (acc ++ concat xss).
Proof.
  intros HF. revert acc.
  induction HF as [|b xs bs xss Hb _ IH]; intros acc; simpl.
  - by rewrite app_nil_r.
  - rewrite Hb, IH. by rewrite <- app_assoc.
Qed.

Lemma table_ok_items ht xss : table_ok ht xss -> items ht = Some (concat xss).
Proof.
  intros Hok. unfold items.
  rewrite (items_loop_spec _ xss); [done|].
  eapply Forall2_impl; [apply (ok_buckets _ _ _ Hok)|].
  intros b xs [Hwf _]. by apply wf_items.
Qed.

Lemma table_ok_bucket ht xss i xs :
  table_ok ht xss -> xss !! i = Some xs ->
  exists b, buckets ht !! i = Some b /\ LinkedList.counted b xs.
Proof.
  intros Hok Hi. eapply Forall2_lookup_r; [apply (ok_buckets _ _ _ Hok) | done].
Qed.

Lemma table_ok_length ht xss :
  table_ok ht xss -> Datatypes.length xss = Datatypes.length (buckets ht).
Proof. intros Hok. symmetry. eapply Forall2_length, ok_buckets, Hok. Qed.

Lemma concat_insert_length xss i xs ys :
  xss !! i = Some xs ->
  (Datatypes.length (concat (<[i := ys]> xss)) + Datatypes.length xs =
   Datatypes.length (concat xss) + Datatypes.length ys)%nat.
Proof.
  revert i. induction xss as [|zs xss IH]; intros [|i] Hi; simpl in *;
    try done.
  - injection Hi as ->. rewrite !length_app. lia.
  - rewrite !length_app. specialize (IH _ Hi). lia.
Qed.

Lemma not_elem_of_fst k v xs : k ∉ xs.*1 -> (k, v) ∉ xs.
Proof. intros Hni Hin. apply Hni. by apply (list_elem_of_fmap_2 fst) in Hin. Qed.

(** Writing a well-formed bucket back keeps the invariant. *)
Lemma table_ok_store ht xss i b xs ys z :
  table_ok ht xss -> xss !! i = Some xs ->
  LinkedList.counted b ys ->
  (forall kv, kv ∈ ys -> kv ∈ xs \/ _bucket_index kv.1 ht = Some i) ->
  NoDup ys.*1 ->
  z + Z.of_nat (Datatypes.length xs) = size ht + Z.of_nat (Datatypes.length ys) ->
  table_ok (store i b ht z) (<[i := ys]> xss).
Proof.
  intros Hok Hi Hb Hsub Hnd Hz.
  pose proof (lookup_lt_Some _ _ _ Hi) as Hlt.
  split.
  - simpl. apply Forall2_insert; [apply (ok_buckets _ _ _ Hok) | done].
  - intros j xs' kv Hj Hin. rewrite bucket_index_store.
    destruct (decide (i = j)) as [<-|Hne].
    + rewrite list_lookup_insert_eq in Hj by done. injection Hj as <-.
      destruct (Hsub _ Hin) as [Hin'|Hidx]; [|done].
      by eapply (ok_home _ _ _ Hok).
    + rewrite list_lookup_insert_ne in Hj by done.
      by eapply (ok_home _ _ _ Hok).
  - intros j xs' Hj. destruct (decide (i = j)) as [<-|Hne].
    + rewrite list_lookup_insert_eq in Hj by done. by injection Hj as <-.
    + rewrite list_lookup_insert_ne in Hj by done.
      by eapply (ok_keys _ _ _ Hok).
  - simpl. pose proof (concat_insert_length _ _ _ ys Hi) as Hlen.
    pose proof (ok_size _ _ _ Hok) as Hsz. lia.
Qed.

(** The bucket a key hashes to, with its entries. *)
Lemma table_ok_home ht xss key i :
  table_ok ht xss -> _bucket_index key ht = Some i ->
  exists b xs,
    buckets ht !! i = Some b /\ xss !! i = Some xs /\
    LinkedList.counted b xs /\ LinkedList.items b = Some xs.
Proof.
  intros Hok Hidx. apply bucket_index_lt in Hidx.
  destruct (lookup_lt_is_Some_2 (buckets ht) i Hidx) as [b Hb].
  destruct (Forall2_lookup_l _ _ _ _ _ (ok_buckets _ _ _ Hok) Hb)
    as (xs & Hxs & Hcount).
  exists b, xs. split; [done|]. split; [done|]. split; [done|].
  apply wf_items, Hcount.
Qed.

Lemma contains_spec ht xss key i xs :
  table_ok ht xss -> _bucket_index key ht = Some i -> xss !! i = Some xs ->
  contains hash key ht = Returns (bool_decide (key ∈ xs.*1)) ht.
Proof.
  intros Hok Hidx Hxs.
  destruct (table_ok_home _ _ _ _ Hok Hidx) as (b & xs' & Hb & Hxs' & _ & Hit).
  rewrite Hxs in Hxs'. injection Hxs' as <-.
  unfold contains. rewrite Hidx, Hb. simpl. rewrite Hit.
  destruct (scan key xs) as [kv|] eqn:Hscan.
  - rewrite bool_decide_eq_true_2; [done|].
    apply dec_stable. intros Hni%scan_None. congruence.
  - apply scan_None in Hscan. by rewrite bool_decide_eq_false_2.
Qed.

Lemma get_spec ht xss key i xs :
  table_ok ht xss -> _bucket_index key ht = Some i -> xss !! i = Some xs ->
  get hash key ht =
  match scan key xs with
  | Some (_, value) => Returns value ht
  | None => Raises KeyError ht
  end.
Proof.
  intros Hok Hidx Hxs.
  destruct (table_ok_home _ _ _ _ Hok Hidx) as (b & xs' & Hb & Hxs' & _ & Hit).
  rewrite Hxs in Hxs'. injection Hxs' as <-.
  unfold get. rewrite Hidx, Hb. simpl. by rewrite Hit.
Qed.

(** [set] on a key that is absent appends to the key's bucket; on a key
    that is present it overwrites the entry where it is. *)
Lemma set_spec ht xss key value i xs :
  table_ok ht xss -> _bucket_index key ht = Some i -> xss !! i = Some xs ->
  exists ht' ys,
    set hash key value ht = Returns tt ht' /\
    table_ok ht' (<[i := ys]> xss) /\
    match scan key xs with
    | None => ys = (xs ++ [(key, value)]) /\ size ht' = size ht + 1
    | Some kv =>
        exists pre post,
          xs = pre ++ kv :: post /\ (key ∉ pre.*1) /\ kv.1 = key /\
          ys = (pre ++ (key, value) :: post) /\ size ht' = size ht
    end.
Proof.
  intros Hok Hidx Hxs.
  destruct (table_ok_home _ _ _ _ Hok Hidx)
    as (b & xs' & Hb & Hxs' & [Hwf Hcnt] & Hit).
  rewrite Hxs in Hxs'. injection Hxs' as <-.
  pose proof (ok_keys _ _ _ Hok _ _ Hxs) as Hnd.
  unfold set. rewrite Hidx, Hb, Hit.
  destruct (scan key xs) as [[k0 v0]|] eqn:Hscan.
  - destruct (scan_Some _ _ _ Hscan) as (pre & post & -> & Hk & Hpre).
    simpl in Hk. subst k0.
    destruct (replace_hit (key, v0) (key, value) b pre post Hwf)
      as (b' & -> & Hwf' & Hsz'); [by apply not_elem_of_fst|].
    eexists _, (pre ++ (key, value) :: post). split; [done|].
    split; [|by exists pre, post].
    eapply table_ok_store; try done.
    + split; [done|]. rewrite Hsz', Hcnt, !length_app. done.
    + intros kv Hin. rewrite elem_of_app, elem_of_cons in Hin.
      rewrite elem_of_app, elem_of_cons.
      destruct Hin as [Hin|[Hin|Hin]]; subst; auto.
    + by rewrite fmap_app, fmap_cons in Hnd |- *.
    + rewrite !length_app. simpl. lia.
  - apply scan_None in Hscan.
    eexists _, (xs ++ [(key, value)]). split; [done|]. split; [|done].
    eapply table_ok_store; try done.
    + split; [by apply wf_append|].
      rewrite size_append, Hcnt, length_app. simpl. lia.
    + intros kv Hin. rewrite elem_of_app, list_elem_of_singleton in Hin.
      destruct Hin as [Hin|Hin]; subst; auto.
    + rewrite fmap_app. apply NoDup_app. split; [done|].
      split; [|apply NoDup_singleton].
      intros k Hin ->%list_elem_of_singleton. done.
    + rewrite length_app. simpl. lia.
Qed.

(** [delete] on a key that is present unlinks its entry; on a key that is
    absent it raises and writes nothing. *)
Lemma delete_spec ht xss key i xs :
  table_ok ht xss -> _bucket_index key ht = Some i -> xss !! i = Some xs ->
  match scan key xs with
  | None => delete hash key ht = Raises KeyError ht
  | Some kv =>
      exists ht' pre post,
        xs = pre ++ kv :: post /\
        delete hash key ht = Returns tt ht' /\
        table_ok ht' (<[i := pre ++ post]> xss) /\
        size ht' = size ht - 1
  end.
Proof.
  intros Hok Hidx Hxs.
  destruct (table_ok_home _ _ _ _ Hok Hidx)
    as (b & xs' & Hb & Hxs' & [Hwf Hcnt] & Hit).
  rewrite Hxs in Hxs'. injection Hxs' as <-.
  pose proof (ok_keys _ _ _ Hok _ _ Hxs) as Hnd.
  unfold delete. rewrite Hidx, Hb, Hit.
  destruct (scan key xs) as [[k0 v0]|] eqn:Hscan; [|done].
  destruct (scan_Some _ _ _ Hscan) as (pre & post & -> & Hk & Hpre).
  simpl in Hk. subst k0.
  rewrite fmap_app, fmap_cons in Hnd.
  apply NoDup_app in Hnd as (Hnd1 & Hdisj & [Hpost Hnd2]%NoDup_cons).
  destruct (delete_once (key, v0) b pre post Hwf)
    as (b' & -> & Hwf' & Hsz'); [by apply not_elem_of_fst..|].
  exists (store i b' ht (size ht - 1)), pre, post.
  split; [done|]. split; [done|]. split; [|done].
  eapply table_ok_store; try done.
  - split; [done|]. rewrite Hsz', Hcnt, !length_app. simpl. lia.
  - intros kv Hin. left. rewrite elem_of_app in Hin.
    rewrite elem_of_app, elem_of_cons. destruct Hin; auto.
  - rewrite fmap_app. apply NoDup_app. split; [done|]. split; [|done].
    intros k Hin1 Hin2. apply (Hdisj _ Hin1). by right.
  - rewrite !length_app. simpl. lia.
Qed.

Lemma elem_of_concat_lookup (kv : K * V) xss :
  kv ∈ concat xss <-> exists i xs, xss !! i = Some xs /\ kv ∈ xs.
Proof.
  induction xss as [|xs xss IH]; simpl.
  - split; [by intros ?%elem_of_nil | by intros (i & xs & ? & _)].
  - rewrite elem_of_app, IH. split.
    + intros [Hin|(i & xs' & Hi & Hin)]; [by exists 0%nat, xs|].
      by exists (S i), xs'.
    + intros ([|i] & xs' & Hi & Hin); simpl in Hi.
      * injection Hi as ->. by left.
      * right. by exists i, xs'.
Qed.

Lemma NoDup_fst_agree xs k v1 v2 :
  NoDup xs.*1 -> (k, v1) ∈ xs -> (k, v2) ∈ xs -> v1 = v2.
Proof.
  induction xs as [|[k' v'] xs IH]; simpl; [by intros _ ?%elem_of_nil|].
  intros [Hni Hnd]%NoDup_cons Hin1 Hin2.
  apply elem_of_cons in Hin1 as [Heq1|Hin1];
    apply elem_of_cons in Hin2 as [Heq2|Hin2].
  - congruence.
  - injection Heq1 as -> ->. exfalso. apply Hni.
    by apply (list_elem_of_fmap_2 fst) in Hin2.
  - injection Heq2 as -> ->. exfalso. apply Hni.
    by apply (list_elem_of_fmap_2 fst) in Hin1.
  - by apply IH.
Qed.

(** Buckets that hold different keys: no key twice in the whole table. *)
Lemma concat_keys_NoDup (g : K -> nat) xss off :
  (forall i xs kv, xss !! i = Some xs -> kv ∈ xs -> g kv.1 = (off + i)%nat) ->
  (forall i xs, xss !! i = Some xs -> NoDup xs.*1) ->
  NoDup (concat xss).*1.
Proof.
  revert off. induction xss as [|xs xss IH]; intros off Hhome Hkeys; simpl.
  - apply NoDup_nil_2.
  - rewrite fmap_app. apply NoDup_app. split; [by apply (Hkeys 0%nat)|]. split.
    + intros k [[k1 v1] [-> Hin1]]%list_elem_of_fmap
               [[k2 v2] [Hk Hin2]]%list_elem_of_fmap.
      simpl in Hk. subst k2.
      apply elem_of_concat_lookup in Hin2 as (i & xs' & Hi & Hin2).
      pose proof (Hhome 0%nat _ _ eq_refl Hin1) as Hg1.
      pose proof (Hhome (S i) _ _ Hi Hin2) as Hg2.
      simpl in Hg1, Hg2. lia.
    + apply (IH (S off)).
      * intros i xs' kv Hi Hin. rewrite (Hhome (S i) _ _ Hi Hin). lia.
      * intros i xs' Hi. by apply (Hkeys (S i)).
Qed.

Lemma table_ok_keys ht xss : table_ok ht xss -> NoDup (concat xss).*1.
Proof.
  intros Hok.
  apply (concat_keys_NoDup (fun k => default 0%nat (_bucket_index k ht)) _ 0).
  - intros i xs kv Hi Hin. by rewrite (ok_home _ _ _ Hok _ _ _ Hi Hin).
  - apply (ok_keys _ _ _ Hok).
Qed.

(** An entry of the table is an entry of the bucket its key hashes to. *)
Lemma table_ok_elem ht xss key v i xs :
  table_ok ht xss -> _bucket_index key ht = Some i -> xss !! i = Some xs ->
  (key, v) ∈ concat xss <-> (key, v) ∈ xs.
Proof.
  intros Hok Hidx Hxs. rewrite elem_of_concat_lookup. split.
  - intros (j & xs' & Hj & Hin).
    pose proof (ok_home _ _ _ Hok _ _ _ Hj Hin) as Hidx'. simpl in Hidx'.
    congruence.
  - intros Hin. by exists i, xs.
Qed.

Lemma table_ok_init init_size :
  table_ok (init init_size : t K V) (replicate (Z.to_nat init_size) []).
Proof.
  assert (forall n, concat (replicate n (@nil (K * V))) = []) as Hnil.
  { induction n; simpl; congruence. }
  split.
  - apply Forall2_replicate. split; [apply wf_init | done].
  - intros i xs kv [-> _]%lookup_replicate Hin. by apply elem_of_nil in Hin.
  - intros i xs [-> _]%lookup_replicate. apply NoDup_nil_2.
  - by rewrite Hnil.
Qed.

(** Every table a caller can obtain satisfies the invariant. *)
Lemma reachable_ok ht : reachable hash ht -> exists xss, table_ok ht xss.
Proof.
  induction 1 as [init_size|key value ht ht' _ [xss Hok] Hfin
                 |key ht ht' _ [xss Hok] Hfin].
  - eexists. apply table_ok_init.
  - destruct (_bucket_index key ht) as [i|] eqn:Hidx.
    + destruct (table_ok_home _ _ _ _ Hok Hidx) as (b & xs & _ & Hxs & _).
      destruct (set_spec _ _ key value _ _ Hok Hidx Hxs)
        as (ht'' & ys & Hset & Hok' & _).
      rewrite Hset in Hfin. injection Hfin as <-. by eexists.
    + unfold set in Hfin. rewrite Hidx in Hfin. injection Hfin as <-.
      by exists xss.
  - destruct (_bucket_index key ht) as [i|] eqn:Hidx.
    + destruct (table_ok_home _ _ _ _ Hok Hidx) as (b & xs & _ & Hxs & _).
      pose proof (delete_spec _ _ key _ _ Hok Hidx Hxs) as Hdel.
      destruct (scan key xs) as [kv|].
      * destruct Hdel as (ht'' & pre & post & _ & Hdel & Hok' & _).
        rewrite Hdel in Hfin. injection Hfin as <-. by eexists.
      * rewrite Hdel in Hfin. injection Hfin as <-. by exists xss.
    + unfold delete in Hfin. rewrite Hidx in Hfin. injection Hfin as <-.
      by exists xss.
Qed.

End table_facts.

(** * The table operations on the tables a caller can obtain *)

Section table_claims.
Import HashTable.
Context {K V : Type} `{EqDecision K} `{EqDecision V}.
Variable hash : K -> Z.
Implicit Types (ht : t K V) (key k : K) (value v : V).
Implicit Types (xs pre post : list (K * V)) (xss : list (list (K * V))).

Local Abbreviation _bucket_index := (_bucket_index hash).
Local Abbreviation table_ok := (table_ok hash).

(** After [set], the key's bucket holds the new entry, behind entries of
    other keys only. *)
Lemma set_spec_middle ht xss key value i xs :
  table_ok ht xss -> _bucket_index key ht = Some i -> xss !! i = Some xs ->
  exists ht' pre post,
    set hash key value ht = Returns tt ht' /\
    table_ok ht' (<[i := pre ++ (key, value) :: post]> xss) /\
    (key ∉ pre.*1) /\
    _bucket_index key ht' = Some i /\
    size ht' = size ht + match scan key xs with Some _ => 0 | None => 1 end.
Proof.
  intros Hok Hidx Hxs.
  destruct (set_spec hash _ _ key value _ _ Hok Hidx Hxs)
    as (ht' & ys & Hset & Hok' & Hcase).
  assert (exists pre post,
    ys = pre ++ (key, value) :: post /\ (key ∉ pre.*1) /\
    size ht' = size ht + match scan key xs with Some _ => 0 | None => 1 end)
    as (pre & post & -> & Hpre & Hsz).
  { destruct (scan key xs) as [kv|] eqn:Hscan.
    - destruct Hcase as (pre & post & _ & Hpre & _ & -> & Hsz).
      exists pre, post. split; [done|]. split; [done|]. lia.
    - destruct Hcase as [-> Hsz]. apply scan_None in Hscan.
      exists xs, []. split; [done|]. split; [done|]. lia. }
  exists ht', pre, post.
  split; [done|]. split; [done|]. split; [done|]. split; [|done].
  apply (ok_home _ _ _ Hok' i (pre ++ (key, value) :: post) (key, value)).
  - apply list_lookup_insert_eq. by eapply lookup_lt_Some.
  - apply elem_of_app. right. left.
Qed.

Lemma bucket_index_length key ht ht' :
  Datatypes.length (buckets ht') = Datatypes.length (buckets ht) ->
  _bucket_index key ht' = _bucket_index key ht.
Proof. unfold HashTable._bucket_index. by intros ->. Qed.

Lemma table_ok_bucket_items ht xss i xs :
  table_ok ht xss -> xss !! i = Some xs -> bucket_items ht i = Some xs.
Proof.
  intros Hok Hxs.
  destruct (table_ok_bucket hash _ _ _ _ Hok Hxs) as (b & Hb & [Hwf _]).
  unfold bucket_items. rewrite Hb. simpl. by apply wf_items.
Qed.

(** C4. In every table reachable from a freshly constructed one by [set]
    and [delete] calls, [items()] returns exactly [length()] pairs, and
    the keys of these pairs are pairwise distinct. *)
Theorem items_length_distinct ht :
  reachable hash ht ->
  exists its,
    items ht = Some its /\
    Z.of_nat (Datatypes.length its) = length ht /\
    NoDup its.*1.
Proof.
  intros [xss Hok]%reachable_ok. exists (concat xss).
  split; [by eapply table_ok_items|]. split.
  - unfold length. by rewrite (ok_size _ _ _ Hok).
  - by eapply table_ok_keys.
Qed.

(** C1, amended.  In every reachable table with at least one bucket,
    [set(k, v)] returns, and [get(k)] then returns [v].  Afterwards the
    table holds exactly one entry for [k], and its value is [v].  When
    [k] was absent, the entry was appended to the bucket of [k] and the
    count went up by one; when [k] was present, the entry for [k] was
    overwritten where it stood, and the count is as before. *)
Theorem set_then_get ht key value :
  reachable hash ht -> buckets ht <> [] ->
  exists i xs ht' ys its',
    _bucket_index key ht = Some i /\
    bucket_items ht i = Some xs /\
    set hash key value ht = Returns tt ht' /\
    get hash key ht' = Returns value ht' /\
    bucket_items ht' i = Some ys /\
    items ht' = Some its' /\ NoDup its'.*1 /\
    (forall v', (key, v') ∈ its' <-> v' = value) /\
    match scan key xs with
    | None =>
        contains hash key ht = Returns false ht /\
        ys = xs ++ [(key, value)] /\ length ht' = length ht + 1
    | Some _ =>
        contains hash key ht = Returns true ht /\
        (exists pre v0 post,
           xs = pre ++ (key, v0) :: post /\ (key ∉ pre.*1) /\
           ys = pre ++ (key, value) :: post) /\
        length ht' = length ht
    end.
Proof.
  intros [xss Hok]%reachable_ok Hne.
  destruct (bucket_index_Some hash key ht Hne) as (i & Hidx & Hlt).
  destruct (table_ok_home hash _ _ _ _ Hok Hidx) as (b & xs & Hb & Hxs & _ & Hit).
  pose proof (lookup_lt_Some _ _ _ Hxs) as Hlti.
  destruct (set_spec hash _ _ key value _ _ Hok Hidx Hxs)
    as (ht' & ys & Hset & Hok' & Hcase).
  pose proof (contains_spec hash _ _ _ _ _ Hok Hidx Hxs) as Hcont.
  assert (xss' : <[i := ys]> xss !! i = Some ys)
    by (by apply list_lookup_insert_eq).
  assert (exists pre post, ys = pre ++ (key, value) :: post /\ key ∉ pre.*1)
    as (pre & post & Hys & Hpre).
  { destruct (scan key xs) as [kv|] eqn:Hscan.
    - destruct Hcase as (pre & post & _ & Hpre & _ & -> & _). by exists pre, post.
    - destruct Hcase as [-> _]. apply scan_None in Hscan. by exists xs, []. }
  assert ((key, value) ∈ ys) as Hin.
  { rewrite Hys. apply elem_of_app. right. left. }
  pose proof (ok_home _ _ _ Hok' _ _ _ xss' Hin) as Hidx'. simpl in Hidx'.
  exists i, xs, ht', ys, (concat (<[i := ys]> xss)).
  split; [done|]. split; [by eapply table_ok_bucket_items|].
  split; [done|]. split.
  { rewrite (get_spec hash _ _ _ _ _ Hok' Hidx' xss').
    by rewrite Hys, scan_middle. }
  split; [by eapply table_ok_bucket_items|].
  split; [by eapply table_ok_items|].
  split; [by eapply table_ok_keys|]. split.
  { intros v'. rewrite (table_ok_elem hash _ _ _ _ _ _ Hok' Hidx' xss').
    split; [|by intros ->].
    intros Hin'. eapply NoDup_fst_agree; [|exact Hin'|exact Hin].
    by eapply (ok_keys _ _ _ Hok'). }
  unfold length. destruct (scan key xs) as [[k0 v0]|] eqn:Hscan.
  - destruct Hcase as (pre0 & post0 & Hxs0 & Hpre0 & Hk & Hys0 & Hsz).
    simpl in Hk. subst k0.
    split; [|split; [by exists pre0, v0, post0 | done]].
    rewrite Hcont, bool_decide_eq_true_2; [done|].
    apply dec_stable. intros Hni%scan_None. congruence.
  - destruct Hcase as [Hys0 Hsz]. split; [|done].
    apply scan_None in Hscan. by rewrite Hcont, bool_decide_eq_false_2.
Qed.

(** C2, amended.  In every reachable table with at least one bucket:
    [delete(k)] of a present key returns, after which [contains(k)] is
    false and [length()] is one less; [delete(k)] of an absent key
    raises [KeyError] and leaves the whole table, its count included,
    as it was. *)
Theorem delete_present_absent ht key :
  reachable hash ht -> buckets ht <> [] ->
  exists its,
    items ht = Some its /\
    if decide (key ∈ its.*1) then
      contains hash key ht = Returns true ht /\
      exists ht',
        delete hash key ht = Returns tt ht' /\
        contains hash key ht' = Returns false ht' /\
        length ht' = length ht - 1
    else
      contains hash key ht = Returns false ht /\
      delete hash key ht = Raises KeyError ht.
Proof.
  intros [xss Hok]%reachable_ok Hne.
  destruct (bucket_index_Some hash key ht Hne) as (i & Hidx & Hlt).
  destruct (table_ok_home hash _ _ _ _ Hok Hidx) as (b & xs & Hb & Hxs & _ & Hit).
  pose proof (lookup_lt_Some _ _ _ Hxs) as Hlti.
  pose proof (contains_spec hash _ _ _ _ _ Hok Hidx Hxs) as Hcont.
  pose proof (delete_spec hash _ _ key _ _ Hok Hidx Hxs) as Hdel.
  pose proof (ok_keys _ _ _ Hok _ _ Hxs) as Hnd.
  exists (concat xss). split; [by eapply table_ok_items|].
  assert (key ∈ (concat xss).*1 <-> key ∈ xs.*1) as Hiff.
  { split.
    - intros [[k v] [-> Hin]]%list_elem_of_fmap. simpl.
      apply (table_ok_elem hash _ _ _ _ _ _ Hok Hidx Hxs) in Hin.
      by apply (list_elem_of_fmap_2 fst) in Hin.
    - intros [[k v] [-> Hin]]%list_elem_of_fmap. simpl.
      apply (table_ok_elem hash _ _ _ _ _ _ Hok Hidx Hxs) in Hin.
      by apply (list_elem_of_fmap_2 fst) in Hin. }
  destruct (decide (key ∈ (concat xss).*1)) as [Hin|Hni].
  - apply Hiff in Hin.
    split; [by rewrite Hcont, bool_decide_eq_true_2|].
    destruct (scan key xs) as [[k0 v0]|] eqn:Hscan;
      [|apply scan_None in Hscan; done].
    destruct Hdel as (ht' & pre & post & Hsplit & Hdel & Hok' & Hsz).
    destruct (scan_Some _ _ _ Hscan) as (pre' & post' & _ & Hk & _).
    simpl in Hk. subst k0.
    exists ht'. split; [done|]. split; [|done].
    assert (_bucket_index key ht' = Some i) as Hidx'.
    { rewrite <- Hidx. apply bucket_index_length.
      rewrite <- (table_ok_length hash _ _ Hok'), length_insert.
      by apply (table_ok_length hash). }
    rewrite (contains_spec hash _ _ _ i (pre ++ post) Hok' Hidx')
      by (by apply list_lookup_insert_eq).
    rewrite bool_decide_eq_false_2; [done|].
    rewrite Hsplit, fmap_app, fmap_cons in Hnd.
    apply NoDup_app in Hnd as (_ & Hdisj & [Hpost _]%NoDup_cons).
    rewrite fmap_app. intros [Hin'|Hin']%elem_of_app; [|done].
    apply (Hdisj _ Hin'). left.
  - split; [by rewrite Hcont, bool_decide_eq_false_2; [|rewrite <- Hiff]|].
    destruct (scan key xs) as [kv|] eqn:Hscan; [|done].
    exfalso. apply Hni, Hiff. apply dec_stable.
    intros Hnx%scan_None. congruence.
Qed.

(** C3, amended.  In every reachable table with at least one bucket,
    [set(k, v1)] followed by [set(k, v2)] leaves [length()] as it was
    after the first call, and [get(k)] then returns [v2]. *)
Theorem set_twice ht key v1 v2 :
  reachable hash ht -> buckets ht <> [] ->
  exists ht1 ht2,
    set hash key v1 ht = Returns tt ht1 /\
    set hash key v2 ht1 = Returns tt ht2 /\
    length ht2 = length ht1 /\
    get hash key ht2 = Returns v2 ht2.
Proof.
  intros [xss Hok]%reachable_ok Hne.
  destruct (bucket_index_Some hash key ht Hne) as (i & Hidx & Hlt).
  destruct (table_ok_home hash _ _ _ _ Hok Hidx) as (b & xs & Hb & Hxs & _ & Hit).
  pose proof (lookup_lt_Some _ _ _ Hxs) as Hlti.
  destruct (set_spec_middle _ _ key v1 _ _ Hok Hidx Hxs)
    as (ht1 & pre1 & post1 & Hset1 & Hok1 & Hpre1 & Hidx1 & _).
  assert (<[i := pre1 ++ (key, v1) :: post1]> xss !! i
          = Some (pre1 ++ (key, v1) :: post1)) as Hxs1
    by (by apply list_lookup_insert_eq).
  destruct (set_spec_middle _ _ key v2 _ _ Hok1 Hidx1 Hxs1)
    as (ht2 & pre2 & post2 & Hset2 & Hok2 & Hpre2 & Hidx2 & Hsz).
  rewrite scan_middle in Hsz by done.
  exists ht1, ht2. split; [done|]. split; [done|].
  split; [unfold length; lia|].
  rewrite (get_spec hash _ _ _ i (pre2 ++ (key, v2) :: post2) Hok2 Hidx2).
  - by rewrite scan_middle.
  - apply list_lookup_insert_eq. by rewrite length_insert.
Qed.

Lemma store_frame i b ht z j :
  i <> j -> buckets (store i b ht z) !! j = buckets ht !! j.
Proof. intros Hne. by apply list_lookup_insert_ne. Qed.

Lemma store_length i b ht z :
  Datatypes.length (buckets (store i b ht z)) = Datatypes.length (buckets ht).
Proof. apply length_insert. Qed.

(** C8.  Each of [contains(k)], [get(k)], [set(k, v)] and [delete(k)]
    computes the one index [hash(k) mod len(buckets)] and works on the
    bucket at that index only.  Whenever the table has buckets the index
    is computed, and it is that residue, an index into [buckets]; on
    every table a caller can obtain the operation then comes back.
    Whether it returns or raises, the number of buckets and every other
    bucket are exactly as before, and what it answers depends on no
    other bucket (a table that differs in other buckets only gets the
    same answer, and the same bucket written).  With no buckets at all
    the index computation raises [ZeroDivisionError] and nothing is
    touched. *)
Theorem point_operations_one_bucket ht key value :
  (buckets ht <> [] ->
   exists i,
     _bucket_index key ht = Some i /\
     Z.of_nat i = hash key `mod` Z.of_nat (Datatypes.length (buckets ht)) /\
     (i < Datatypes.length (buckets ht))%nat) /\
  (buckets ht = [] ->
   _bucket_index key ht = None /\
   contains hash key ht = Raises ZeroDivisionError ht /\
   get hash key ht = Raises ZeroDivisionError ht /\
   set hash key value ht = Raises ZeroDivisionError ht /\
   delete hash key ht = Raises ZeroDivisionError ht) /\
  (reachable hash ht -> buckets ht <> [] ->
   is_Some (final (contains hash key ht)) /\
   is_Some (final (get hash key ht)) /\
   is_Some (final (set hash key value ht)) /\
   is_Some (final (delete hash key ht))) /\
  (forall ht',
     final (contains hash key ht) = Some ht' \/
     final (get hash key ht) = Some ht' \/
     final (set hash key value ht) = Some ht' \/
     final (delete hash key ht) = Some ht' ->
     Datatypes.length (buckets ht') = Datatypes.length (buckets ht) /\
     forall j, _bucket_index key ht <> Some j ->
               buckets ht' !! j = buckets ht !! j) /\
  (forall ht2,
     Datatypes.length (buckets ht2) = Datatypes.length (buckets ht) ->
     (forall i, _bucket_index key ht = Some i ->
                buckets ht2 !! i = buckets ht !! i) ->
     answer (contains hash key ht2) = answer (contains hash key ht) /\
     answer (get hash key ht2) = answer (get hash key ht) /\
     answer (set hash key value ht2) = answer (set hash key value ht) /\
     answer (delete hash key ht2) = answer (delete hash key ht) /\
     forall i, _bucket_index key ht = Some i ->
       (final (set hash key value ht2) ≫= fun t => buckets t !! i) =
       (final (set hash key value ht) ≫= fun t => buckets t !! i) /\
       (final (delete hash key ht2) ≫= fun t => buckets t !! i) =
       (final (delete hash key ht) ≫= fun t => buckets t !! i)).
Proof.
  split; [|split; [|split; [|split]]].
  - intros Hne. destruct (bucket_index_Some hash key ht Hne) as (i & Hidx & Hlt).
    exists i. split; [done|]. split; [|done].
    unfold HashTable._bucket_index in Hidx. case_decide as Hn; [done|].
    injection Hidx as <-.
    pose proof (Z.mod_pos_bound (hash key)
                  (Z.of_nat (Datatypes.length (buckets ht)))). lia.
  - intros Hnil. apply (bucket_index_None hash key) in Hnil.
    unfold contains, get, set, delete. by rewrite Hnil.
  - intros [xss Hok]%reachable_ok Hne.
    destruct (bucket_index_Some hash key ht Hne) as (i & Hidx & _).
    destruct (table_ok_home hash _ _ _ _ Hok Hidx) as (b & xs & _ & Hxs & _).
    rewrite (contains_spec hash _ _ _ _ _ Hok Hidx Hxs).
    rewrite (get_spec hash _ _ _ _ _ Hok Hidx Hxs).
    destruct (set_spec hash _ _ key value _ _ Hok Hidx Hxs)
      as (ht1 & ys & -> & _).
    pose proof (delete_spec hash _ _ key _ _ Hok Hidx Hxs) as Hdel.
    split; [by eexists|]. split; [by destruct (scan key xs) as [[??]|]|].
    split; [by eexists|].
    destruct (scan key xs) as [kv|].
    + destruct Hdel as (ht2 & pre & post & _ & -> & _). by eexists.
    + rewrite Hdel. by eexists.
  - intros ht' Hfin.
    unfold contains, get, set, delete in Hfin.
    destruct (_bucket_index key ht) as [i|] eqn:Hidx;
      [|by destruct Hfin as [?|[?|[?|?]]]; simplify_eq/=].
    assert (ht' = ht \/ exists b z, ht' = store i b ht z) as [->|(b & z & ->)].
    { destruct Hfin as [Hf|[Hf|[Hf|Hf]]];
        repeat (case_match; simplify_eq/=); eauto. }
    + done.
    + split; [apply store_length|].
      intros j Hj. apply store_frame. congruence.
  - intros ht2 Hlen Hsame.
    pose proof (bucket_index_length key ht ht2 Hlen) as Hidx2.
    unfold contains, get, set, delete. rewrite Hidx2.
    destruct (_bucket_index key ht) as [i|] eqn:Hidx; [|done].
    cbn beta iota. rewrite (Hsame i eq_refl).
    destruct (buckets ht !! i) as [b|] eqn:Hb; simpl; [|by repeat split].
    assert (i < Datatypes.length (buckets ht))%nat as Hlt
      by (by eapply lookup_lt_Some).
    repeat split; repeat (case_match; simplify_eq/=); try done;
      intros; simplify_eq/=;
      rewrite ?list_lookup_insert_eq by lia; try done; by apply Hsame.
Qed.

(** The count of a reachable table is not negative. *)
Lemma reachable_size_nonneg ht : reachable hash ht -> 0 <= size ht.
Proof. intros [xss Hok]%reachable_ok. rewrite (ok_size _ _ _ Hok). lia. Qed.

(** C9.  The bracket sugar is the named operations: [table[k]] is
    [get(k)], with the same result and the same failure; [table[k] = v]
    is [set(k, v)]; [k in table] is [contains(k)]; and [len(table)] is
    [length()] (the count of a reachable table is never negative, so the
    built-in [len] accepts it). *)
Theorem sugar_is_named_operations ht key value :
  __getitem__ hash key ht = get hash key ht /\
  __setitem__ hash key value ht = set hash key value ht /\
  __contains__ hash key ht = contains hash key ht /\
  __len__ ht = length ht /\
  (reachable hash ht -> len ht = Returns (length ht) ht).
Proof.
  repeat split. intros Hsz%reachable_size_nonneg.
  unfold len, __len__, length. by rewrite decide_False by lia.
Qed.

End table_claims.

(** * More on the hash table *)

Section table_more.
Import HashTable.
Context {K V : Type} `{EqDecision K} `{EqDecision V}.
Variable hash : K -> Z.
Implicit Types (ht : t K V) (key k : K) (value v : V).
Implicit Types (xs ys its pre post : list (K * V)) (xss : list (list (K * V))).

Local Abbreviation _bucket_index := (_bucket_index hash).
Local Abbreviation table_ok := (table_ok hash).

Lemma keys_inner_fst its (acc : list K) : keys_inner its acc = acc ++ its.*1.
Proof.
  revert acc. induction its as [|[k v] its IH]; intros acc; simpl.
  - by rewrite app_nil_r.
  - by rewrite IH, <- app_assoc.
Qed.

Lemma values_inner_snd its (acc : list V) : values_inner its acc = acc ++ its.*2.
Proof.
  revert acc. induction its as [|[k v] its IH]; intros acc; simpl.
  - by rewrite app_nil_r.
  - by rewrite IH, <- app_assoc.
Qed.

Lemma keys_values_loop (bs : list (LinkedList.t (K * V))) acc ks vs res :
  items_loop bs acc = Some res ->
  exists more,
    res = acc ++ more /\
    keys_loop bs ks = Some (ks ++ more.*1) /\
    values_loop bs vs = Some (vs ++ more.*2).
Proof.
  revert acc ks vs. induction bs as [|b bs IH]; intros acc ks vs Hres;
    simpl in *.
  - injection Hres as <-. exists []. by rewrite !app_nil_r.
  - destruct (LinkedList.items b) as [its|]; [|done].
    destruct (IH _ (keys_inner its ks) (values_inner its vs) Hres)
      as (more & -> & Hk & Hv).
    exists (its ++ more). rewrite Hk, Hv, keys_inner_fst, values_inner_snd.
    by rewrite !fmap_app, <- !app_assoc.
Qed.

(** X12.  [keys()] and [values()] return the keys and the values of the
    pairs that [items()] returns, in the same order; in a table a caller
    can obtain there are [length()] of each, and no key comes twice. *)
Theorem keys_values_of_items ht its :
  items ht = Some its ->
  keys ht = Some its.*1 /\ values ht = Some its.*2 /\
  (reachable hash ht ->
   Z.of_nat (Datatypes.length its.*1) = length ht /\
   Z.of_nat (Datatypes.length its.*2) = length ht /\
   NoDup its.*1).
Proof.
  intros Hit. unfold keys, values.
  destruct (keys_values_loop _ _ [] [] _ Hit) as (more & -> & -> & ->).
  split; [done|]. split; [done|]. simpl.
  intros [xss Hok]%reachable_ok.
  rewrite (table_ok_items hash _ _ Hok) in Hit. injection Hit as <-.
  rewrite !length_fmap. unfold length. rewrite (ok_size _ _ _ Hok).
  split; [done|]. split; [done|]. by eapply table_ok_keys.
Qed.

Lemma scan_elem key v xs :
  NoDup xs.*1 -> scan key xs = Some (key, v) <-> (key, v) ∈ xs.
Proof.
  intros Hnd. split.
  - intros (pre & post & -> & _)%scan_Some. apply elem_of_app. right. left.
  - intros Hin. destruct (scan key xs) as [[k0 v0]|] eqn:Hscan.
    + destruct (scan_Some _ _ _ Hscan) as (pre & post & -> & Hk & _).
      simpl in Hk. subst k0. f_equal. f_equal.
      eapply NoDup_fst_agree; [done | | done].
      apply elem_of_app. right. left.
    + apply scan_None in Hscan. exfalso. apply Hscan.
      by apply (list_elem_of_fmap_2 fst) in Hin.
Qed.

Lemma scan_fst key xs kv : scan key xs = Some kv -> kv.1 = key.
Proof. by intros (pre & post & _ & Hk & _)%scan_Some. Qed.

(** The lookups in a table on its invariant. *)
Lemma lookup_ok ht xss key :
  table_ok ht xss -> buckets ht <> [] ->
  contains hash key ht = Returns (bool_decide (key ∈ (concat xss).*1)) ht /\
  (forall v, get hash key ht = Returns v ht <-> (key, v) ∈ concat xss) /\
  (get hash key ht = Raises KeyError ht <-> key ∉ (concat xss).*1).
Proof.
  intros Hok Hne.
  destruct (bucket_index_Some hash key ht Hne) as (i & Hidx & Hlt).
  destruct (table_ok_home hash _ _ _ _ Hok Hidx) as (b & xs & Hb & Hxs & _ & Hit).
  pose proof (ok_keys _ _ _ Hok _ _ Hxs) as Hnd.
  assert (key ∈ (concat xss).*1 <-> key ∈ xs.*1) as Hiff.
  { split; intros [[k v] [-> Hin]]%list_elem_of_fmap; simpl;
      apply (table_ok_elem hash _ _ _ _ _ _ Hok Hidx Hxs) in Hin;
      by apply (list_elem_of_fmap_2 fst) in Hin. }
  rewrite (contains_spec hash _ _ _ _ _ Hok Hidx Hxs).
  rewrite (get_spec hash _ _ _ _ _ Hok Hidx Hxs).
  split; [by apply f_equal2; [apply bool_decide_ext|]|].
  split.
  - intros v. rewrite (table_ok_elem hash _ _ _ _ _ _ Hok Hidx Hxs).
    rewrite <- (scan_elem key v xs Hnd).
    destruct (scan key xs) as [[k0 v0]|] eqn:Hscan; [|by split].
    pose proof (scan_fst _ _ _ Hscan) as Hk. simpl in Hk. subst k0.
    split; [by intros [= ->] | by intros [= ->]].
  - rewrite Hiff, <- scan_None.
    destruct (scan key xs) as [[k0 v0]|]; by split.
Qed.

(** X13.  In a table a caller can obtain that has a bucket, the lookups
    agree with [items()]: [get(k)] returns [v] exactly when [(k, v)] is
    one of the items, it raises [KeyError] exactly when no item has key
    [k] (and raises nothing else), and [contains(k)] tells whether an
    item has key [k]. *)
Theorem lookups_agree_with_items ht key :
  reachable hash ht -> buckets ht <> [] ->
  exists its,
    items ht = Some its /\
    contains hash key ht = Returns (bool_decide (key ∈ its.*1)) ht /\
    (forall v, get hash key ht = Returns v ht <-> (key, v) ∈ its) /\
    (get hash key ht = Raises KeyError ht <-> key ∉ its.*1) /\
    (forall e, answer (get hash key ht) = Some (inr e) -> e = KeyError).
Proof.
  intros [xss Hok]%reachable_ok Hne. exists (concat xss).
  split; [by eapply table_ok_items|].
  destruct (lookup_ok ht xss key Hok Hne) as (Hcont & Hget & Hraise).
  split; [done|]. split; [done|]. split; [done|].
  intros e He.
  destruct (bucket_index_Some hash key ht Hne) as (i & Hidx & Hlt).
  destruct (table_ok_home hash _ _ _ _ Hok Hidx) as (b & xs & Hb & Hxs & _ & Hit).
  rewrite (get_spec hash _ _ _ _ _ Hok Hidx Hxs) in He.
  destruct (scan key xs) as [[k0 v0]|]; simpl in He; congruence.
Qed.
Lemma concat_insert_elem xss i xs ys (kv : K * V) :
  xss !! i = Some xs ->
  kv ∈ concat (<[i := ys]> xss) <->
  kv ∈ ys \/ exists j xs', j <> i /\ xss !! j = Some xs' /\ kv ∈ xs'.
Proof.
  intros Hi. pose proof (lookup_lt_Some _ _ _ Hi) as Hlt.
  rewrite elem_of_concat_lookup. split.
  - intros (j & xs' & Hj & Hin). destruct (decide (i = j)) as [<-|Hne].
    + rewrite list_lookup_insert_eq in Hj by done. injection Hj as <-.
      by left.
    + rewrite list_lookup_insert_ne in Hj by done. right.
      by exists j, xs'.
  - intros [Hin|(j & xs' & Hne & Hj & Hin)].
    + exists i, ys. by rewrite list_lookup_insert_eq.
    + exists j, xs'. by rewrite list_lookup_insert_ne.
Qed.

Lemma table_ok_nonempty ht xss ht' xss' :
  table_ok ht xss -> table_ok ht' xss' ->
  Datatypes.length xss' = Datatypes.length xss ->
  buckets ht <> [] -> buckets ht' <> [].
Proof.
  intros Hok Hok' Hlen Hne Hnil.
  apply (table_ok_length hash) in Hok, Hok'.
  rewrite Hnil in Hok'. destruct (buckets ht); [done|]. simpl in *. lia.
Qed.

(** Replacing the bucket of [key]: what it means for the items. *)
Lemma table_ok_elem_insert ht xss key i xs ys k' v' :
  table_ok ht xss -> _bucket_index key ht = Some i -> xss !! i = Some xs ->
  (forall kv, kv ∈ ys -> kv ∈ xs \/ kv.1 = key) ->
  (k', v') ∈ concat (<[i := ys]> xss) <->
  (k', v') ∈ ys \/ (k' <> key /\ ((k', v') ∉ xs) /\ (k', v') ∈ concat xss).
Proof.
  intros Hok Hidx Hxs Hys. rewrite (concat_insert_elem _ _ _ _ _ Hxs). split.
  - intros [Hin|(j & xs' & Hne & Hj & Hin)]; [by left|]. right.
    pose proof (ok_home _ _ _ Hok _ _ _ Hj Hin) as Hhome. simpl in Hhome.
    split; [|split].
    + intros ->. congruence.
    + intros Hin'. pose proof (ok_home _ _ _ Hok _ _ _ Hxs Hin') as Hhome'.
      simpl in Hhome'. congruence.
    + apply elem_of_concat_lookup. by exists j, xs'.
  - intros [Hin|(Hne & Hni & Hin)]; [by left|]. right.
    apply elem_of_concat_lookup in Hin as (j & xs' & Hj & Hin).
    exists j, xs'. split; [|done]. intros ->. congruence.
Qed.

(** [set] on the invariant, as a change of the items. *)
Lemma set_ok ht xss key value :
  table_ok ht xss -> buckets ht <> [] ->
  exists ht' xss',
    set hash key value ht = Returns tt ht' /\
    table_ok ht' xss' /\ buckets ht' <> [] /\
    (forall k' v', (k', v') ∈ concat xss' <->
       (k' = key /\ v' = value) \/ (k' <> key /\ (k', v') ∈ concat xss)).
Proof.
  intros Hok Hne.
  destruct (bucket_index_Some hash key ht Hne) as (i & Hidx & Hlt).
  destruct (table_ok_home hash _ _ _ _ Hok Hidx) as (b & xs & Hb & Hxs & _ & Hit).
  pose proof (ok_keys _ _ _ Hok _ _ Hxs) as Hnd.
  destruct (set_spec hash _ _ key value _ _ Hok Hidx Hxs)
    as (ht' & ys & Hset & Hok' & Hcase).
  exists ht', (<[i := ys]> xss). split; [done|]. split; [done|].
  split; [eapply table_ok_nonempty; [exact Hok | exact Hok' | | done];
          apply length_insert|].
  assert (forall k' v', (k', v') ∈ ys <->
            (k' = key /\ v' = value) \/ (k' <> key /\ (k', v') ∈ xs)) as Hys.
  { intros k' v'. destruct (scan key xs) as [[k0 v0]|] eqn:Hscan.
    - destruct Hcase as (pre & post & -> & Hpre & Hk & -> & _).
      simpl in Hk. subst k0. rewrite fmap_app, fmap_cons in Hnd.
      apply NoDup_app in Hnd as (_ & _ & [Hpost _]%NoDup_cons).
      rewrite !elem_of_app, !elem_of_cons. split.
      + intros [Hin|[[= -> ->]|Hin]]; [right|by left|right]; (split; [|tauto]);
          intros ->; apply (list_elem_of_fmap_2 fst) in Hin; done.
      + intros [[-> ->]|[Hk' [Hin|[[= -> ->]|Hin]]]]; tauto.
    - destruct Hcase as [-> _]. apply scan_None in Hscan.
      rewrite elem_of_app, list_elem_of_singleton. split.
      + intros [Hin|[= -> ->]]; [right|by left]. split; [|done].
        intros ->. by apply (list_elem_of_fmap_2 fst) in Hin.
      + intros [[-> ->]|[Hk' Hin]]; [by right | by left]. }
  intros k' v'.
  rewrite (table_ok_elem_insert ht xss key i xs ys k' v' Hok Hidx Hxs).
  - rewrite Hys. split.
    + intros [H1|(Hk' & _ & Hin)]; [|by right].
      destruct H1 as [?|[Hk' Hin]]; [by left|]. right. split; [done|].
      apply elem_of_concat_lookup. by exists i, xs.
    + intros [?|[Hk' Hin]]; [by left; left|].
      destruct (decide ((k', v') ∈ xs)); [left; right | right]; done.
  - intros [k0 v0] [[-> ->]|[_ Hin]]%Hys; [by right | by left].
Qed.

(** [delete] on the invariant, as a change of the items. *)
Lemma delete_ok ht xss key ht' :
  table_ok ht xss -> buckets ht <> [] ->
  final (delete hash key ht) = Some ht' ->
  exists xss',
    table_ok ht' xss' /\ buckets ht' <> [] /\
    (forall k' v', (k', v') ∈ concat xss' <->
       k' <> key /\ (k', v') ∈ concat xss).
Proof.
  intros Hok Hne Hfin.
  destruct (bucket_index_Some hash key ht Hne) as (i & Hidx & Hlt).
  destruct (table_ok_home hash _ _ _ _ Hok Hidx) as (b & xs & Hb & Hxs & _ & Hit).
  pose proof (ok_keys _ _ _ Hok _ _ Hxs) as Hnd.
  pose proof (delete_spec hash _ _ key _ _ Hok Hidx Hxs) as Hdel.
  destruct (scan key xs) as [[k0 v0]|] eqn:Hscan.
  - destruct Hdel as (ht'' & pre & post & -> & Hdel & Hok' & _).
    rewrite Hdel in Hfin. injection Hfin as <-.
    pose proof (scan_fst _ _ _ Hscan) as Hk. simpl in Hk. subst k0.
    exists (<[i := pre ++ post]> xss). split; [done|].
    split; [eapply table_ok_nonempty; [exact Hok | exact Hok' | | done];
            apply length_insert|].
    rewrite fmap_app, fmap_cons in Hnd.
    apply NoDup_app in Hnd as (_ & Hdisj & [Hpost _]%NoDup_cons).
    assert (forall v', (key, v') ∉ pre ++ post) as Hgone.
    { intros v' [Hin|Hin]%elem_of_app;
        apply (list_elem_of_fmap_2 fst) in Hin; simpl in Hin; [|done].
      apply (Hdisj _ Hin). left. }
    intros k' v'.
    rewrite (table_ok_elem_insert ht xss key i _ (pre ++ post) k' v'
               Hok Hidx Hxs).
    + split.
      * intros [Hin|(Hk' & _ & Hin)]; [|done]. split.
        -- intros ->. by apply (Hgone v').
        -- apply elem_of_concat_lookup. exists i, (pre ++ (key, v0) :: post).
           split; [done|]. rewrite elem_of_app in Hin.
           rewrite elem_of_app, elem_of_cons. tauto.
      * intros [Hk' Hin].
        destruct (decide ((k', v') ∈ pre ++ (key, v0) :: post)) as [Hin'|Hni];
          [left | by right].
        rewrite elem_of_app, elem_of_cons in Hin'. rewrite elem_of_app.
        destruct Hin' as [?|[[= -> ->]|?]]; tauto.
    + intros kv Hin. left. rewrite elem_of_app in Hin.
      rewrite elem_of_app, elem_of_cons. tauto.
  - rewrite Hdel in Hfin. injection Hfin as <-.
    exists xss. split; [done|]. split; [done|].
    intros k' v'. split; [|by intros [_ ?]].
    intros Hin. split; [|done]. intros ->.
    apply (table_ok_elem hash _ _ _ _ _ _ Hok Hidx Hxs) in Hin.
    apply scan_None in Hscan. by apply (list_elem_of_fmap_2 fst) in Hin.
Qed.

(** Two tables with the same items for a key answer its lookups alike. *)
Lemma lookups_alike ht xss ht' xss' k :
  table_ok ht xss -> buckets ht <> [] ->
  table_ok ht' xss' -> buckets ht' <> [] ->
  (forall v, (k, v) ∈ concat xss' <-> (k, v) ∈ concat xss) ->
  answer (get hash k ht') = answer (get hash k ht) /\
  answer (contains hash k ht') = answer (contains hash k ht).
Proof.
  intros Hok Hne Hok' Hne' Hsame.
  destruct (lookup_ok ht xss k Hok Hne) as (Hc & Hg & Hr).
  destruct (lookup_ok ht' xss' k Hok' Hne') as (Hc' & Hg' & Hr').
  assert (k ∈ (concat xss').*1 <-> k ∈ (concat xss).*1) as Hkeys.
  { split; intros [[k0 v0] [-> Hin]]%list_elem_of_fmap; simpl;
      apply Hsame in Hin; by apply (list_elem_of_fmap_2 fst) in Hin. }
  split; [|by rewrite Hc, Hc'; simpl; rewrite (bool_decide_ext _ _ Hkeys)].
  destruct (decide (k ∈ (concat xss).*1)) as [Hin|Hni].
  - apply list_elem_of_fmap in Hin as [[k0 v0] [Hk Hin]]. simpl in Hk.
    subst k0. pose proof Hin as Hin'. apply Hsame in Hin'.
    apply Hg in Hin. apply Hg' in Hin'. by rewrite Hin, Hin'.
  - pose proof Hni as Hni'. rewrite <- Hkeys in Hni'.
    apply Hr in Hni. apply Hr' in Hni'. by rewrite Hni, Hni'.
Qed.
(** X14.  In a table a caller can obtain that has a bucket, [set(k, v)]
    returns and changes the entry of [k] only: afterwards the items are
    [(k, v)] and the items there were for other keys, and [get] and
    [contains] answer for every other key as before, whether or not it
    shares the bucket of [k]. *)
Theorem set_changes_one_key ht key value :
  reachable hash ht -> buckets ht <> [] ->
  exists ht' its its',
    set hash key value ht = Returns tt ht' /\
    items ht = Some its /\ items ht' = Some its' /\
    (forall k' v', (k', v') ∈ its' <->
       (k' = key /\ v' = value) \/ (k' <> key /\ (k', v') ∈ its)) /\
    (forall k', k' <> key ->
       answer (get hash k' ht') = answer (get hash k' ht) /\
       answer (contains hash k' ht') = answer (contains hash k' ht)).
Proof.
  intros [xss Hok]%reachable_ok Hne.
  destruct (set_ok ht xss key value Hok Hne)
    as (ht' & xss' & Hset & Hok' & Hne' & Hmap).
  exists ht', (concat xss), (concat xss'). split; [done|].
  split; [by eapply table_ok_items|]. split; [by eapply table_ok_items|].
  split; [done|]. intros k' Hk'.
  apply (lookups_alike ht xss ht' xss'); try done.
  intros v. rewrite Hmap. split; [by intros [[? _]|[_ ?]] | by right].
Qed.

(** X15.  In a table a caller can obtain that has a bucket, whatever
    [delete(k)] does (return, or raise [KeyError]), afterwards no item
    has key [k], [get(k)] raises [KeyError], and the items, [get] and
    [contains] for every other key are as before. *)
Theorem delete_changes_one_key ht key ht' :
  reachable hash ht -> buckets ht <> [] ->
  final (delete hash key ht) = Some ht' ->
  exists its its',
    items ht = Some its /\ items ht' = Some its' /\
    (forall k' v', (k', v') ∈ its' <-> k' <> key /\ (k', v') ∈ its) /\
    get hash key ht' = Raises KeyError ht' /\
    contains hash key ht' = Returns false ht' /\
    (forall k', k' <> key ->
       answer (get hash k' ht') = answer (get hash k' ht) /\
       answer (contains hash k' ht') = answer (contains hash k' ht)).
Proof.
  intros [xss Hok]%reachable_ok Hne Hfin.
  destruct (delete_ok ht xss key ht' Hok Hne Hfin)
    as (xss' & Hok' & Hne' & Hmap).
  exists (concat xss), (concat xss').
  split; [by eapply table_ok_items|]. split; [by eapply table_ok_items|].
  split; [done|].
  assert (key ∉ (concat xss').*1) as Hgone.
  { intros [[k0 v0] [-> Hin]]%list_elem_of_fmap. apply Hmap in Hin.
    by destruct Hin. }
  destruct (lookup_ok ht' xss' key Hok' Hne') as (Hc & _ & Hr).
  split; [by apply Hr|].
  split; [by rewrite Hc, bool_decide_eq_false_2|].
  intros k' Hk'. apply (lookups_alike ht xss ht' xss'); try done.
  intros v. rewrite Hmap. split; [by intros [_ ?] | done].
Qed.

Lemma snoc_split_key xs key v pre post :
  key ∉ xs.*1 -> xs ++ [(key, v)] = pre ++ (key, v) :: post ->
  pre = xs /\ post = [].
Proof.
  revert pre. induction xs as [|x xs IH]; intros pre Hni Heq; simpl in *.
  - destruct pre as [|a pre]; simpl in Heq; [by injection Heq as <-|].
    injection Heq as -> Heq. by destruct pre.
  - apply not_elem_of_cons in Hni as [Hne Hni].
    destruct pre as [|a pre]; simpl in Heq.
    + injection Heq as -> _. done.
    + injection Heq as -> Heq. destruct (IH pre Hni Heq) as [-> ->]. done.
Qed.

(** X16.  In a table a caller can obtain that has a bucket, [set(k, v)]
    of an absent key followed by [delete(k)] gives back the items there
    were, in their order, and the count. *)
Theorem set_then_delete_restores ht key value :
  reachable hash ht -> buckets ht <> [] ->
  contains hash key ht = Returns false ht ->
  exists ht1 ht2,
    set hash key value ht = Returns tt ht1 /\
    delete hash key ht1 = Returns tt ht2 /\
    items ht2 = items ht /\ is_Some (items ht) /\
    length ht2 = length ht.
Proof.
  intros [xss Hok]%reachable_ok Hne Habsent.
  destruct (bucket_index_Some hash key ht Hne) as (i & Hidx & Hlt).
  destruct (table_ok_home hash _ _ _ _ Hok Hidx) as (b & xs & Hb & Hxs & _ & Hit).
  pose proof (lookup_lt_Some _ _ _ Hxs) as Hlti.
  rewrite (contains_spec hash _ _ _ _ _ Hok Hidx Hxs) in Habsent.
  assert (key ∉ xs.*1) as Hni.
  { intros Hin. by rewrite bool_decide_eq_true_2 in Habsent. }
  destruct (set_spec hash _ _ key value _ _ Hok Hidx Hxs)
    as (ht1 & ys & Hset & Hok1 & Hcase).
  rewrite (proj2 (scan_None key xs) Hni) in Hcase. destruct Hcase as [-> Hsz1].
  assert (_bucket_index key ht1 = Some i) as Hidx1.
  { rewrite <- Hidx. apply bucket_index_length.
    rewrite <- (table_ok_length hash _ _ Hok1), length_insert.
    by apply (table_ok_length hash). }
  assert (<[i := xs ++ [(key, value)]]> xss !! i = Some (xs ++ [(key, value)]))
    as Hxs1 by (by apply list_lookup_insert_eq).
  pose proof (delete_spec hash _ _ key _ _ Hok1 Hidx1 Hxs1) as Hdel.
  rewrite scan_middle in Hdel by done.
  destruct Hdel as (ht2 & pre & post & Hsplit & Hdel & Hok2 & Hsz2).
  destruct (snoc_split_key _ _ _ _ _ Hni Hsplit) as [-> ->].
  rewrite app_nil_r, list_insert_insert_eq, list_insert_id in Hok2 by done.
  exists ht1, ht2. split; [done|]. split; [done|].
  rewrite (table_ok_items hash _ _ Hok), (table_ok_items hash _ _ Hok2).
  split; [done|]. split; [done|]. unfold length. lia.
Qed.
Lemma set_all_cons kv kvs ht :
  set_all hash (kv :: kvs) ht = set_all hash kvs (run (set hash kv.1 kv.2) ht).
Proof. done. Qed.

(** A run of [set] calls on the invariant: every key holds the value of
    its last call, and the keys that were not set hold what they held. *)
Lemma set_all_ok kvs :
  forall ht xss, table_ok ht xss -> buckets ht <> [] ->
  exists xss',
    table_ok (set_all hash kvs ht) xss' /\
    buckets (set_all hash kvs ht) <> [] /\
    (forall k v, (k, v) ∈ concat xss' <->
       match last (filter (fun kv => kv.1 = k) kvs) with
       | Some kv => kv = (k, v)
       | None => (k, v) ∈ concat xss
       end).
Proof.
  induction kvs as [|[k0 v0] kvs IH]; intros ht xss Hok Hne.
  - by exists xss.
  - rewrite set_all_cons. simpl fst. simpl snd.
    destruct (set_ok ht xss k0 v0 Hok Hne)
      as (ht1 & xss1 & Hset & Hok1 & Hne1 & Hmap).
    unfold run. rewrite Hset. simpl.
    destruct (IH ht1 xss1 Hok1 Hne1) as (xss' & Hok' & Hne' & Hall).
    exists xss'. split; [done|]. split; [done|].
    intros k v. rewrite Hall. destruct (decide (k0 = k)) as [->|Hk].
    + rewrite filter_cons_True by done. rewrite last_cons.
      destruct (last (filter _ kvs)) as [kv|]; [done|].
      rewrite Hmap. split; [intros [[_ ->]|[? _]]; done | intros [= ->]; by left].
    + rewrite filter_cons_False by done.
      destruct (last (filter _ kvs)) as [kv|]; [done|].
      rewrite Hmap. split; [intros [[-> _]|[_ ?]]; done | by right].
Qed.

Lemma last_filter_key (kvs : list (K * V)) k :
  k ∈ kvs.*1 <-> exists v, last (filter (fun kv => kv.1 = k) kvs) = Some (k, v).
Proof.
  split.
  - intros [[k0 v0] [-> Hin]]%list_elem_of_fmap. simpl.
    destruct (last (filter (fun kv => kv.1 = k0) kvs)) as [[k1 v1]|] eqn:Hlast.
    + apply last_Some_elem_of, list_elem_of_filter in Hlast as [Hk _].
      simpl in Hk. subst k1. by exists v1.
    + apply last_None in Hlast.
      assert ((k0, v0) ∈ filter (fun kv => kv.1 = k0) kvs) as Hin'
        by (by apply list_elem_of_filter).
      rewrite Hlast in Hin'. by apply elem_of_nil in Hin'.
  - intros [v Hlast].
    apply last_Some_elem_of, list_elem_of_filter in Hlast as [_ Hin].
    by apply (list_elem_of_fmap_2 fst) in Hin.
Qed.

(** X17.  After any run of [set] calls on a new table with at least one
    bucket, every key that was set holds the value of its last call
    ([items()] has this pair and [get] returns this value), nothing else
    is held, and [length()] is the number of distinct keys set. *)
Theorem sets_give_last_values init_size kvs :
  0 < init_size ->
  let ht := set_all hash kvs (init init_size) in
  exists its,
    items ht = Some its /\
    (forall k v, (k, v) ∈ its <->
       last (filter (fun kv => kv.1 = k) kvs) = Some (k, v)) /\
    (forall k v, get hash k ht = Returns v ht <->
       last (filter (fun kv => kv.1 = k) kvs) = Some (k, v)) /\
    length ht = Z.of_nat (Datatypes.length (remove_dups kvs.*1)).
Proof.
  intros Hpos ht.
  assert (buckets (init init_size : t K V) <> []) as Hne.
  { simpl. destruct (Z.to_nat init_size) eqn:Hn; [lia | done]. }
  destruct (set_all_ok kvs _ _ (table_ok_init hash init_size) Hne)
    as (xss & Hok & Hne' & Hall). fold ht in Hok, Hne'.
  assert (forall k v, (k, v) ∈ concat xss <->
            last (filter (fun kv => kv.1 = k) kvs) = Some (k, v)) as Hlast.
  { intros k v. rewrite Hall.
    destruct (last (filter _ kvs)) as [kv|]; [by split; [intros ->|intros [= ->]]|].
    split; [|done]. intros Hin.
    apply elem_of_concat_lookup in Hin as (i & xs & [-> _]%lookup_replicate & Hin).
    by apply elem_of_nil in Hin. }
  exists (concat xss). split; [by eapply table_ok_items|]. split; [done|].
  split; [intros k v; by rewrite <- Hlast, <- (proj1 (proj2 (lookup_ok ht xss k Hok Hne')))|].
  unfold length. rewrite (ok_size _ _ _ Hok). f_equal.
  rewrite <- (length_fmap fst). apply Permutation_length, NoDup_Permutation.
  - by eapply table_ok_keys.
  - apply NoDup_remove_dups.
  - intros k. rewrite elem_of_remove_dups, (last_filter_key kvs k). split.
    + intros [[k0 v0] [-> Hin]]%list_elem_of_fmap. exists v0. by apply Hlast.
    + intros [v Hv]. apply Hlast in Hv.
      by apply (list_elem_of_fmap_2 fst) in Hv.
Qed.
(** X18.  [HashTable(init_size)] with [init_size <= 0] has no bucket:
    [set], [get], [contains] and [delete] all raise [ZeroDivisionError]
    and leave it as it is, so that it never holds anything; [items],
    [keys] and [values] return the empty list and [length] 0. *)
Theorem no_buckets_no_entries init_size key value :
  init_size <= 0 ->
  let ht : t K V := init init_size in
  buckets ht = [] /\
  set hash key value ht = Raises ZeroDivisionError ht /\
  get hash key ht = Raises ZeroDivisionError ht /\
  contains hash key ht = Raises ZeroDivisionError ht /\
  delete hash key ht = Raises ZeroDivisionError ht /\
  items ht = Some [] /\ keys ht = Some [] /\ values ht = Some [] /\
  length ht = 0.
Proof.
  intros Hle ht.
  assert (buckets ht = []) as Hnil.
  { subst ht. unfold init. by rewrite Z2Nat.nonpos. }
  assert (_bucket_index key ht = None) as Hidx
    by (by apply bucket_index_None).
  split; [done|].
  unfold set, get, contains, delete, items, keys, values.
  by rewrite Hidx, Hnil.
Qed.

(** X19.  [HashTable(init_size)] with [init_size >= 1] has [init_size]
    buckets and no entry: [items()] is empty, [length()] is 0,
    [contains(k)] is false, and [get(k)] and [delete(k)] raise
    [KeyError] and leave the table as it is. *)
Theorem new_table_is_empty init_size key :
  0 < init_size ->
  let ht : t K V := init init_size in
  Z.of_nat (Datatypes.length (buckets ht)) = init_size /\
  items ht = Some [] /\ length ht = 0 /\
  contains hash key ht = Returns false ht /\
  get hash key ht = Raises KeyError ht /\
  delete hash key ht = Raises KeyError ht.
Proof.
  intros Hpos ht.
  pose proof (table_ok_init hash init_size : table_ok ht _) as Hok.
  assert (Datatypes.length (buckets ht) = Z.to_nat init_size) as Hlen
    by apply length_replicate.
  assert (buckets ht <> []) as Hne.
  { intros Hnil. rewrite Hnil in Hlen. simpl in Hlen. lia. }
  destruct (bucket_index_Some hash key ht Hne) as (i & Hidx & Hlt).
  assert (replicate (Z.to_nat init_size) (@nil (K * V)) !! i = Some []) as Hxs.
  { apply lookup_replicate. split; [done | lia]. }
  split; [lia|].
  split.
  { rewrite (table_ok_items hash _ _ Hok). f_equal.
    clear. induction (Z.to_nat init_size); simpl; congruence. }
  split; [done|].
  split; [by rewrite (contains_spec hash _ _ _ _ _ Hok Hidx Hxs)|].
  split; [by rewrite (get_spec hash _ _ _ _ _ Hok Hidx Hxs)|].
  apply (delete_spec hash _ _ key _ _ Hok Hidx Hxs).
Qed.
Lemma bucket_counts_sum (bs : list (LinkedList.t (K * V))) xss :
  Forall2 LinkedList.counted bs xss ->
  foldr (fun b acc => LinkedList.length b + acc) 0 bs
    = Z.of_nat (Datatypes.length (concat xss)).
Proof.
  unfold LinkedList.length.
  induction 1 as [|b xs bs xss [_ Hsz] _ IH]; simpl; [done|].
  rewrite IH, Hsz, length_app. lia.
Qed.

(** X20.  The table keeps its buckets in order: in every table a caller
    can obtain, each bucket is a well-formed list whose own [length()] is
    the number of its entries, holds no key twice, and holds only keys
    that hash to its index; and [length()] of the table is the sum of the
    [length()] of its buckets.  (The table calls the list's [delete] and
    [replace] only with an entry that the bucket holds once.) *)
Theorem buckets_stay_well_formed ht :
  reachable hash ht ->
  (forall i b, buckets ht !! i = Some b ->
     exists xs,
       LinkedList.items b = Some xs /\
       LinkedList.wf b xs /\
       LinkedList.length b = Z.of_nat (Datatypes.length xs) /\
       NoDup xs.*1 /\
       (forall kv, kv ∈ xs -> _bucket_index kv.1 ht = Some i)) /\
  length ht = foldr (fun b acc => LinkedList.length b + acc) 0 (buckets ht).
Proof.
  intros [xss Hok]%reachable_ok. split.
  - intros i b Hb.
    destruct (Forall2_lookup_l _ _ _ _ _ (ok_buckets _ _ _ Hok) Hb)
      as (xs & Hxs & Hwf & Hsz).
    exists xs. split; [by apply wf_items|]. split; [done|]. split; [done|].
    split; [by eapply (ok_keys _ _ _ Hok)|].
    intros kv Hin. by eapply (ok_home _ _ _ Hok).
  - rewrite (bucket_counts_sum _ xss (ok_buckets _ _ _ Hok)).
    apply (ok_size _ _ _ Hok).
Qed.

Lemma collect_suspended ht' rest (acc : list (K * V)) fuel :
  (Datatypes.length rest < fuel)%nat ->
  collect (generator_next ht') fuel (Suspended rest) acc
    = Some (acc ++ rest, Finished).
Proof.
  revert fuel acc. induction rest as [|node rest IH]; intros fuel acc Hfuel;
    (destruct fuel as [|fuel]; [simpl in Hfuel; lia|]); simpl.
  - by rewrite app_nil_r.
  - rewrite IH by (simpl in Hfuel; lia). by rewrite <- app_assoc.
Qed.

(** X21.  The generator [iterate()] yields the pairs of [items()], in
    their order, and then raises [StopIteration] for good.  It takes
    [items()] when its first item is asked for: what it yields after the
    first item does not depend on what the table has become since. *)
Theorem iterate_yields_items ht its fuel :
  items ht = Some its -> (Datatypes.length its < fuel)%nat ->
  collect (generator_next ht) (S fuel) (iterate ht) [] = Some (its, Finished) /\
  (forall ht' node g,
     generator_next ht (iterate ht) = Some (Some node, g) ->
     collect (generator_next ht') fuel g [node] = Some (its, Finished)) /\
  (forall ht', generator_next ht' Finished = Some (None, Finished)).
Proof.
  intros Hit Hfuel. split; [|split; [|done]].
  - simpl. rewrite Hit. destruct its as [|node rest]; [done|].
    apply collect_suspended. simpl in Hfuel. lia.
  - intros ht' node g. simpl. rewrite Hit.
    destruct its as [|node' rest]; [done|]. intros [= -> <-].
    apply collect_suspended. simpl in Hfuel. lia.
Qed.
End table_more.

(** * The properties on concrete lists and tables *)

Lemma reachable_run_set {K V : Type} `{EqDecision K} `{EqDecision V}
    (hash : K -> Z) key value (ht : HashTable.t K V) :
  HashTable.reachable hash ht ->
  HashTable.reachable hash (run (HashTable.set hash key value) ht).
Proof.
  intros Hr. unfold run.
  destruct (final (HashTable.set hash key value ht)) as [ht'|] eqn:Hfin;
    [|done].
  by eapply HashTable.reachable_set.
Qed.

Lemma reachable_run_delete {A : Type} `{EqDecision A} (item : A) c :
  LinkedList.reachable c -> LinkedList.reachable (run (LinkedList.delete item) c).
Proof.
  intros Hr. unfold run.
  destruct (final (LinkedList.delete item c)) as [c'|] eqn:Hfin; [|done].
  by eapply LinkedList.reachable_delete.
Qed.

Lemma reachable_roman : HashTable.reachable int_hash roman.
Proof. repeat apply reachable_run_set. constructor. Qed.

Lemma reachable_roman9 : HashTable.reachable int_hash roman9.
Proof. apply reachable_run_set, reachable_roman. Qed.

Lemma reachable_no_buckets : HashTable.reachable int_hash no_buckets.
Proof. constructor. Qed.

Lemma reachable_list_AA_minus_A : LinkedList.reachable list_AA_minus_A.
Proof. apply reachable_run_delete, reachable_of_list. Qed.

(** C1 as stated fails on a table without buckets: [HashTable(0)] is a
    table a caller can construct, and on it [set(1, 10)] raises
    [ZeroDivisionError], so that no [get] returns the value. *)
Lemma set_then_get_no_buckets :
  HashTable.reachable int_hash no_buckets /\
  HashTable.set int_hash 1 10 no_buckets = Raises ZeroDivisionError no_buckets /\
  ~ exists ht',
      final (HashTable.set int_hash 1 10 no_buckets) = Some ht' /\
      HashTable.get int_hash 1 ht' = Returns 10 ht'.
Proof.
  split; [apply reachable_no_buckets|]. split; [done|].
  intros (ht' & [= <-] & Hget). discriminate Hget.
Qed.

(** C2 as stated fails on a table without buckets: key 1 is absent, and
    [delete(1)] raises [ZeroDivisionError], not [KeyError]. *)
Lemma delete_absent_no_buckets :
  HashTable.reachable int_hash no_buckets /\
  HashTable.items no_buckets = Some [] /\
  HashTable.delete int_hash 1 no_buckets = Raises ZeroDivisionError no_buckets /\
  HashTable.delete int_hash 1 no_buckets <> Raises KeyError no_buckets.
Proof. split; [apply reachable_no_buckets | done]. Qed.

(** C3 as stated fails on a table without buckets: after [set(1, 10)] and
    [set(1, 20)], which both raise, [get(1)] raises as well and does not
    return 20. *)
Lemma set_twice_no_buckets :
  HashTable.reachable int_hash no_buckets /\
  ~ exists ht1 ht2,
      final (HashTable.set int_hash 1 10 no_buckets) = Some ht1 /\
      final (HashTable.set int_hash 1 20 ht1) = Some ht2 /\
      HashTable.get int_hash 1 ht2 = Returns 20 ht2.
Proof.
  split; [apply reachable_no_buckets|].
  intros (ht1 & ht2 & [= <-] & [= <-] & Hget). discriminate Hget.
Qed.

(** C6: on a list with one node the code does not always leave the
    count alone when [delete] fails.  [LinkedList(['A'])] takes the
    branch of the one node, and [delete('C')] raises [ValueError] with
    the list, count included, as it was.  [LinkedList(['A', 'A'])] after
    [delete('A')] holds the one entry 'A' as well and has the count 1,
    but its [tail] is still the unlinked node (the loop of [delete] has
    no [break]): the test [head == tail] of that branch fails, and
    [delete('C')] raises [ValueError] with the count 0. *)
Theorem failed_delete_one_node_decrements :
  LinkedList.delete "C"%string (LinkedList.of_list ["A"%string])
    = Raises ValueError (LinkedList.of_list ["A"%string]) /\
  LinkedList.reachable list_AA_minus_A /\
  LinkedList.items list_AA_minus_A = Some ["A"%string] /\
  LinkedList.length list_AA_minus_A = 1 /\
  LinkedList.head list_AA_minus_A <> LinkedList.tail list_AA_minus_A /\
  exists c',
    LinkedList.delete "C"%string list_AA_minus_A = Raises ValueError c' /\
    LinkedList.reachable c' /\
    LinkedList.items c' = Some ["A"%string] /\
    LinkedList.length c' = 0.
Proof.
  split; [vm_compute; reflexivity|].
  split; [apply reachable_list_AA_minus_A|]. split; [done|]. split; [done|].
  split; [done|].
  eexists. split; [vm_compute; reflexivity|]. split; [|done].
  eapply LinkedList.reachable_delete with (item := "C"%string);
    [apply reachable_list_AA_minus_A | done].
Qed.

(** C5: the code does not keep the count equal to the number of nodes.
    On [LinkedList(['A', 'B'])], where both are 2, [delete('C')] raises
    [ValueError] and leaves a reachable list that still has the two nodes
    but whose [length()] is 1. *)
Theorem failed_delete_breaks_count :
  LinkedList.reachable list_AB /\
  LinkedList.items list_AB = Some ["A"%string; "B"%string] /\
  LinkedList.length list_AB = 2 /\
  exists c',
    LinkedList.delete "C"%string list_AB = Raises ValueError c' /\
    LinkedList.reachable c' /\
    LinkedList.items c' = Some ["A"%string; "B"%string] /\
    LinkedList.length c' = 1.
Proof.
  split; [apply reachable_of_list|]. split; [done|]. split; [done|].
  eexists. split; [vm_compute; reflexivity|]. split; [|done].
  eapply LinkedList.reachable_delete with (item := "C"%string);
    [apply (reachable_of_list ["A"%string; "B"%string]) | done].
Qed.

(** C7: the code does not stop at the first node that holds the entry.
    On [LinkedList(['A', 'B', 'A'])], [delete('A')] returns with both
    nodes that hold 'A' unlinked: [items()] is ['B'], not ['B', 'A'], and
    the count went from 3 to 2. *)
Theorem delete_unlinks_later_duplicate :
  LinkedList.items list_ABA = Some ["A"%string; "B"%string; "A"%string] /\
  LinkedList.length list_ABA = 3 /\
  exists c',
    LinkedList.delete "A"%string list_ABA = Returns tt c' /\
    LinkedList.items c' = Some ["B"%string] /\
    LinkedList.length c' = 2.
Proof.
  split; [done|]. split; [done|].
  eexists. split; [vm_compute; reflexivity|]. done.
Qed.

(** ** The theorems at concrete inputs *)

(** [set(9, 90)] on the table of the scenario, then [get(9)]. *)
Lemma set_then_get_witness :
  HashTable.reachable int_hash roman /\ HashTable.buckets roman <> [] /\
  exists ht',
    HashTable.set int_hash 9 90 roman = Returns tt ht' /\
    HashTable.get int_hash 9 ht' = Returns 90 ht'.
Proof.
  split; [apply reachable_roman|]. split; [done|].
  destruct (set_then_get int_hash roman 9 90 reachable_roman)
    as (i & xs & ht' & ys & its' & _ & _ & Hset & Hget & _); [done|].
  by exists ht'.
Defined.

(** [delete(9)] on a table that holds key 9. *)
Lemma delete_present_absent_witness :
  HashTable.reachable int_hash roman9 /\ HashTable.buckets roman9 <> [] /\
  exists ht',
    HashTable.delete int_hash 9 roman9 = Returns tt ht' /\
    HashTable.contains int_hash 9 ht' = Returns false ht' /\
    HashTable.length ht' = HashTable.length roman9 - 1.
Proof.
  split; [apply reachable_roman9|]. split; [done|].
  destruct (delete_present_absent int_hash roman9 9 reachable_roman9)
    as (its & Hits & Hcase); [done|].
  vm_compute in Hits. injection Hits as <-.
  destruct (decide (9 ∈ [(1, 1); (9, 90); (10, 10); (5, 5)].*1)) as [_|Hni].
  - by destruct Hcase as [_ Hdel].
  - exfalso. apply Hni. simpl. right. left.
Defined.

(** [set(9, 90)] and [set(9, 91)] on the table of the scenario. *)
Lemma set_twice_witness :
  HashTable.reachable int_hash roman /\ HashTable.buckets roman <> [] /\
  exists ht1 ht2,
    HashTable.set int_hash 9 90 roman = Returns tt ht1 /\
    HashTable.set int_hash 9 91 ht1 = Returns tt ht2 /\
    HashTable.length ht2 = HashTable.length ht1 /\
    HashTable.get int_hash 9 ht2 = Returns 91 ht2.
Proof.
  split; [apply reachable_roman|]. split; [done|].
  apply (set_twice int_hash roman 9 90 91 reachable_roman). done.
Defined.

Lemma items_length_distinct_witness :
  HashTable.reachable int_hash roman9 /\
  exists its,
    HashTable.items roman9 = Some its /\
    Z.of_nat (Datatypes.length its) = HashTable.length roman9 /\
    NoDup its.*1.
Proof.
  split; [apply reachable_roman9|].
  apply (items_length_distinct int_hash roman9 reachable_roman9).
Defined.

(** [set(9, 91)] on a table of eight buckets whose bucket 1 holds keys 1
    and 9 works on bucket 1 and leaves bucket 2 alone. *)
Lemma point_operations_one_bucket_witness :
  HashTable.buckets roman9 <> [] /\
  HashTable._bucket_index int_hash 9 roman9 = Some 1%nat /\
  final (HashTable.set int_hash 9 91 roman9)
    = Some (run (HashTable.set int_hash 9 91) roman9) /\
  HashTable.buckets (run (HashTable.set int_hash 9 91) roman9) !! 2%nat
    = HashTable.buckets roman9 !! 2%nat.
Proof.
  assert (HashTable.buckets roman9 <> []) as Hne by done.
  destruct (point_operations_one_bucket int_hash roman9 9 91)
    as (Hindex & _ & _ & Hframe & _).
  destruct (Hindex Hne) as (i & Hidx & Hmod & _).
  assert (int_hash 9 `mod`
            Z.of_nat (Datatypes.length (HashTable.buckets roman9)) = 1)
    as Hval by (vm_compute; reflexivity).
  assert (i = 1%nat) as -> by lia.
  split; [exact Hne|]. split; [exact Hidx|]. split; [done|].
  apply (Hframe (run (HashTable.set int_hash 9 91) roman9)).
  - right. right. left. done.
  - rewrite Hidx. discriminate.
Defined.

Lemma sugar_is_named_operations_witness :
  HashTable.reachable int_hash roman /\
  HashTable.len roman = Returns 3 roman.
Proof.
  split; [apply reachable_roman|].
  destruct (sugar_is_named_operations int_hash roman 1 1) as (_ & _ & _ & _ & Hlen).
  apply (Hlen reachable_roman).
Defined.



Lemma failed_delete_keeps_structure_witness :
  LinkedList.items list_AB = Some ["A"%string; "B"%string] /\
  ("C"%string ∉ ["A"%string; "B"%string]) /\
  exists c',
    LinkedList.delete "C"%string list_AB = Raises ValueError c' /\
    LinkedList.heap c' = LinkedList.heap list_AB /\
    LinkedList.head c' = LinkedList.head list_AB /\
    LinkedList.tail c' = LinkedList.tail list_AB /\
    LinkedList.items c' = Some ["A"%string; "B"%string] /\
    c' = LinkedList.with_size (LinkedList.size c') list_AB.
Proof.
  assert ("C"%string ∉ ["A"%string; "B"%string]) as Hni
    by (apply (bool_decide_unpack _); vm_compute; exact I).
  split; [done|]. split; [done|].
  by apply failed_delete_keeps_structure.
Defined.

(** ** The further theorems at concrete inputs *)

Lemma append_at_tail_witness :
  LinkedList.counted list_AB ["A"%string; "B"%string] /\
  LinkedList.items (LinkedList.append "C"%string list_AB)
    = Some ["A"%string; "B"%string; "C"%string].
Proof.
  split; [apply counted_of_list|].
  destruct (append_at_tail "C"%string list_AB ["A"%string; "B"%string])
    as (Hit & _); [apply counted_of_list | exact Hit].
Defined.

(** [prepend] on the list whose [tail] is an unlinked node. *)
Lemma prepend_at_head_witness :
  LinkedList.items list_AA_minus_A = Some ["A"%string] /\
  LinkedList.items (LinkedList.prepend "Z"%string list_AA_minus_A)
    = Some ["Z"%string; "A"%string].
Proof.
  split; [done|].
  destruct (prepend_at_head "Z"%string list_AA_minus_A ["A"%string])
    as (Hit & _); [done | exact Hit].
Defined.

Lemma append_behind_unlinked_tail_witness :
  LinkedList.chain (LinkedList.heap list_AA_minus_A)
    (LinkedList.head list_AA_minus_A) [1%nat] ["A"%string] /\
  LinkedList.tail list_AA_minus_A = Some 0%nat /\
  (0%nat ∉ [1%nat]) /\
  LinkedList.items (LinkedList.append "X"%string list_AA_minus_A)
    = Some ["A"%string].
Proof.
  assert (LinkedList.chain (LinkedList.heap list_AA_minus_A)
            (LinkedList.head list_AA_minus_A) [1%nat] ["A"%string]) as Hc.
  { apply (LinkedList.seg_cons _ _ 1%nat (LinkedList.mkNode "A"%string None)
             [] []); [done | constructor]. }
  assert (0%nat ∉ [1%nat]) as Hni
    by (apply (bool_decide_unpack _); vm_compute; exact I).
  split; [done|]. split; [done|]. split; [done|].
  destruct (append_behind_unlinked_tail "X"%string list_AA_minus_A
              [1%nat] ["A"%string] 0%nat Hc eq_refl Hni) as [Hit _].
  exact Hit.
Defined.

Lemma find_first_witness :
  LinkedList.items list_ABA = Some ["A"%string; "B"%string; "A"%string] /\
  LinkedList.find (fun s => bool_decide (s = "B"%string)) list_ABA
    = Some (Some "B"%string).
Proof.
  split; [done|].
  destruct (find_first (fun s => bool_decide (s = "B"%string)) list_ABA
              ["A"%string; "B"%string; "A"%string] eq_refl) as [Hfind _].
  exact Hfind.
Defined.

Lemma replace_first_witness :
  LinkedList.items list_ABA = Some ["A"%string; "B"%string; "A"%string] /\
  ("B"%string ∉ ["A"%string]) /\
  exists c',
    LinkedList.replace "B"%string "C"%string list_ABA = Returns tt c' /\
    LinkedList.items c' = Some ["A"%string; "C"%string; "A"%string].
Proof.
  assert ("B"%string ∉ ["A"%string]) as Hni
    by (apply (bool_decide_unpack _); vm_compute; exact I).
  split; [done|]. split; [done|].
  destruct (replace_first "B"%string "C"%string list_ABA
              ["A"%string; "B"%string; "A"%string] eq_refl) as [_ Hhit].
  destruct (Hhit ["A"%string] ["A"%string] eq_refl Hni)
    as (c' & Hrep & Hit & _).
  by exists c'.
Defined.

Lemma delete_stored_once_witness :
  LinkedList.counted list_AB ([] ++ "A"%string :: ["B"%string]) /\
  ("A"%string ∉ @nil string) /\ ("A"%string ∉ ["B"%string]) /\
  exists c',
    LinkedList.delete "A"%string list_AB = Returns tt c' /\
    LinkedList.items c' = Some ["B"%string] /\
    LinkedList.length c' = 1.
Proof.
  assert ("A"%string ∉ ["B"%string]) as Hni
    by (apply (bool_decide_unpack _); vm_compute; exact I).
  split; [apply (counted_of_list ["A"%string; "B"%string])|].
  split; [apply not_elem_of_nil|]. split; [done|].
  destruct (delete_stored_once "A"%string list_AB [] ["B"%string])
    as (c' & Hdel & Hit & Hlen & _);
    [apply (counted_of_list ["A"%string; "B"%string])
    | apply not_elem_of_nil | done |].
  exists c'. split; [done|]. split; [done|]. rewrite Hlen. done.
Defined.

Lemma methods_come_back_witness :
  LinkedList.reachable list_AA_minus_A /\
  is_Some (LinkedList.items list_AA_minus_A) /\
  is_Some (final (LinkedList.delete "A"%string list_AA_minus_A)).
Proof.
  split; [apply reachable_list_AA_minus_A|].
  destruct (methods_come_back list_AA_minus_A reachable_list_AA_minus_A)
    as (Hit & _ & Hdel & _).
  split; [exact Hit | apply Hdel].
Defined.

Lemma llIterator_yields_items_witness :
  LinkedList.items list_AB = Some ["A"%string; "B"%string] /\
  (Datatypes.length ["A"%string; "B"%string] < 3)%nat /\
  collect (LinkedList.__next__ (LinkedList.heap list_AB)) 3
    (LinkedList.llIterator (LinkedList.head list_AB)) []
    = Some (["A"%string; "B"%string], None).
Proof.
  split; [done|]. split; [simpl; lia|].
  destruct (llIterator_yields_items list_AB ["A"%string; "B"%string] 3 eq_refl)
    as [Hcol _]; [simpl; lia | exact Hcol].
Defined.


Lemma delete_removes_only_item_witness :
  LinkedList.wf list_ABA ["A"%string; "B"%string; "A"%string] /\
  final (LinkedList.delete "A"%string list_ABA)
    = Some (run (LinkedList.delete "A"%string) list_ABA) /\
  exists ys,
    LinkedList.items (run (LinkedList.delete "A"%string) list_ABA) = Some ys /\
    ys `sublist_of` ["A"%string; "B"%string; "A"%string].
Proof.
  split; [apply (counted_of_list ["A"%string; "B"%string; "A"%string])|].
  split; [done|].
  destruct (delete_removes_only_item "A"%string list_ABA
              ["A"%string; "B"%string; "A"%string]
              (run (LinkedList.delete "A"%string) list_ABA))
    as (ys & Hit & Hsub & _);
    [apply (counted_of_list ["A"%string; "B"%string; "A"%string]) | done |].
  by exists ys.
Defined.

Lemma keys_values_of_items_witness :
  HashTable.items roman9 = Some [(1, 1); (9, 90); (10, 10); (5, 5)] /\
  HashTable.keys roman9 = Some [1; 9; 10; 5] /\
  HashTable.values roman9 = Some [1; 90; 10; 5].
Proof.
  split; [done|].
  destruct (keys_values_of_items int_hash roman9
              [(1, 1); (9, 90); (10, 10); (5, 5)] eq_refl) as (Hk & Hv & _).
  split; [exact Hk | exact Hv].
Defined.

Lemma lookups_agree_with_items_witness :
  HashTable.reachable int_hash roman9 /\ HashTable.buckets roman9 <> [] /\
  exists its,
    HashTable.items roman9 = Some its /\
    (HashTable.get int_hash 9 roman9 = Returns 90 roman9 <-> (9, 90) ∈ its).
Proof.
  split; [apply reachable_roman9|]. split; [done|].
  destruct (lookups_agree_with_items int_hash roman9 9 reachable_roman9)
    as (its & Hit & _ & Hget & _); [done|].
  exists its. split; [exact Hit | apply Hget].
Defined.

(** [set(1, 2)] leaves key 9, which shares the bucket of key 1, alone. *)
Lemma set_changes_one_key_witness :
  HashTable.reachable int_hash roman9 /\ HashTable.buckets roman9 <> [] /\
  exists ht',
    HashTable.set int_hash 1 2 roman9 = Returns tt ht' /\
    answer (HashTable.get int_hash 9 ht')
      = answer (HashTable.get int_hash 9 roman9).
Proof.
  split; [apply reachable_roman9|]. split; [done|].
  destruct (set_changes_one_key int_hash roman9 1 2 reachable_roman9)
    as (ht' & its & its' & Hset & _ & _ & _ & Hother); [done|].
  exists ht'. split; [exact Hset|]. by apply Hother.
Defined.

(** [delete(1)] leaves key 9, which shares the bucket of key 1, alone. *)
Lemma delete_changes_one_key_witness :
  HashTable.reachable int_hash roman9 /\ HashTable.buckets roman9 <> [] /\
  final (HashTable.delete int_hash 1 roman9)
    = Some (run (HashTable.delete int_hash 1) roman9) /\
  HashTable.get int_hash 1 (run (HashTable.delete int_hash 1) roman9)
    = Raises KeyError (run (HashTable.delete int_hash 1) roman9) /\
  answer (HashTable.get int_hash 9 (run (HashTable.delete int_hash 1) roman9))
    = answer (HashTable.get int_hash 9 roman9).
Proof.
  split; [apply reachable_roman9|]. split; [done|]. split; [done|].
  destruct (delete_changes_one_key int_hash roman9 1
              (run (HashTable.delete int_hash 1) roman9) reachable_roman9)
    as (its & its' & _ & _ & _ & Hget & _ & Hother); [done | done |].
  split; [exact Hget|]. by apply Hother.
Defined.

Lemma set_then_delete_restores_witness :
  HashTable.reachable int_hash roman /\ HashTable.buckets roman <> [] /\
  HashTable.contains int_hash 9 roman = Returns false roman /\
  exists ht1 ht2,
    HashTable.set int_hash 9 90 roman = Returns tt ht1 /\
    HashTable.delete int_hash 9 ht1 = Returns tt ht2 /\
    HashTable.items ht2 = HashTable.items roman.
Proof.
  split; [apply reachable_roman|]. split; [done|]. split; [done|].
  destruct (set_then_delete_restores int_hash roman 9 90 reachable_roman)
    as (ht1 & ht2 & Hset & Hdel & Hit & _); [done | done |].
  by exists ht1, ht2.
Defined.

Lemma sets_give_last_values_witness :
  0 < 8 /\
  HashTable.length
    (set_all int_hash [(1, 1); (9, 2); (1, 3)] (HashTable.init 8))
  = Z.of_nat (Datatypes.length (remove_dups [(1, 1); (9, 2); (1, 3)].*1)).
Proof.
  split; [lia|].
  destruct (sets_give_last_values int_hash 8 [(1, 1); (9, 2); (1, 3)])
    as (its & _ & _ & _ & Hlen); [lia | exact Hlen].
Defined.

Lemma no_buckets_no_entries_witness :
  0 <= 0 /\
  HashTable.set int_hash 1 10 (HashTable.init 0)
    = Raises ZeroDivisionError (HashTable.init 0).
Proof.
  split; [lia|].
  destruct (no_buckets_no_entries int_hash 0 1 10) as (_ & Hset & _);
    [lia | exact Hset].
Defined.

Lemma new_table_is_empty_witness :
  0 < 8 /\
  HashTable.get int_hash 1 (HashTable.init 8 : HashTable.t Z Z)
    = Raises KeyError (HashTable.init 8).
Proof.
  split; [lia|].
  destruct (new_table_is_empty (V := Z) int_hash 8 1) as (_ & _ & _ & _ & Hget & _);
    [lia | exact Hget].
Defined.

Lemma buckets_stay_well_formed_witness :
  HashTable.reachable int_hash roman9 /\
  HashTable.length roman9
    = foldr (fun b acc => LinkedList.length b + acc) 0
        (HashTable.buckets roman9).
Proof.
  split; [apply reachable_roman9|].
  destruct (buckets_stay_well_formed int_hash roman9 reachable_roman9)
    as [_ Hsum].
  exact Hsum.
Defined.

Lemma iterate_yields_items_witness :
  HashTable.items roman9 = Some [(1, 1); (9, 90); (10, 10); (5, 5)] /\
  (Datatypes.length [(1, 1); (9, 90); (10, 10); (5, 5)] < 5)%nat /\
  collect (HashTable.generator_next roman9) 6 (HashTable.iterate roman9) []
    = Some ([(1, 1); (9, 90); (10, 10); (5, 5)], HashTable.Finished).
Proof.
  split; [done|]. split; [simpl; lia|].
  destruct (iterate_yields_items roman9 [(1, 1); (9, 90); (10, 10); (5, 5)] 5
              eq_refl) as [Hcol _]; [simpl; lia | exact Hcol].
Defined.

Lemma failed_delete_count_rule_witness :
  LinkedList.items list_AB = Some ["A"%string; "B"%string] /\
  ("C"%string ∉ ["A"%string; "B"%string]) /\
  LinkedList.reachable list_AB /\
  (2 <= Datatypes.length ["A"%string; "B"%string])%nat /\
  LinkedList.delete "C"%string list_AB
    = Raises ValueError
        (LinkedList.with_size (LinkedList.size list_AB - 1) list_AB).
Proof.
  assert ("C"%string ∉ ["A"%string; "B"%string]) as Hni
    by (apply (bool_decide_unpack _); vm_compute; exact I).
  assert (LinkedList.reachable list_AB) as Hr
    by apply (reachable_of_list ["A"%string; "B"%string]).
  split; [done|]. split; [exact Hni|]. split; [exact Hr|].
  split; [simpl; lia|].
  destruct (failed_delete_count_rule "C"%string list_AB
              ["A"%string; "B"%string]) as (_ & Hmany & _);
    [done | exact Hni |].
  apply Hmany; [exact Hr | simpl; lia].
Defined.

(** ** The two scenarios of the documentation, run on the model *)

(** [set('I', 1); set('V', 5); set('X', 10)] on [HashTable(8)]: three
    entries, [get('V')] is 5, [contains('X')] holds; after [delete('V')]
    two entries are left and [get('V')] raises [KeyError]. *)
Example scenario_table :
  HashTable.length roman = 3 /\
  HashTable.get int_hash 5 roman = Returns 5 roman /\
  HashTable.contains int_hash 10 roman = Returns true roman /\
  let ht := run (HashTable.delete int_hash 5) roman in
  HashTable.delete int_hash 5 roman = Returns tt ht /\
  HashTable.length ht = 2 /\
  HashTable.get int_hash 5 ht = Raises KeyError ht.
Proof. repeat split. Qed.

(** [append('A'); append('B'); prepend('Z')] on an empty list gives
    ['Z', 'A', 'B']; [delete('A')] leaves ['Z', 'B'] and length 2; a
    second [delete('A')] raises [ValueError], and the length is 1 then. *)
Example scenario_chain :
  let c0 : LinkedList.t string :=
    LinkedList.prepend "Z"%string
      (LinkedList.append "B"%string
         (LinkedList.append "A"%string LinkedList.init)) in
  let c1 := run (LinkedList.delete "A"%string) c0 in
  let c2 := run (LinkedList.delete "A"%string) c1 in
  LinkedList.items c0 = Some ["Z"%string; "A"%string; "B"%string] /\
  LinkedList.length c0 = 3 /\
  LinkedList.delete "A"%string c0 = Returns tt c1 /\
  LinkedList.items c1 = Some ["Z"%string; "B"%string] /\
  LinkedList.length c1 = 2 /\
  LinkedList.delete "A"%string c1 = Raises ValueError c2 /\
  LinkedList.items c2 = Some ["Z"%string; "B"%string] /\
  LinkedList.length c2 = 1.
Proof. repeat split. Qed.

(** After [delete('A')] on [LinkedList(['A', 'A'])], [tail] is the node
    that was unlinked: an [append] links the new node behind it, out of
    reach of [head]. *)
Example append_after_double_delete :
  let c := LinkedList.append "X"%string list_AA_minus_A in
  LinkedList.items c = Some ["A"%string] /\ LinkedList.length c = 2.
Proof. repeat split. Qed.
